(** * Starknet address validator: shallow embedding and verification

    The development embeds the address library of the validator
    (format detection, the legacy hexadecimal validator, the two flat
    Bech32 validators, the unified TLV validator, the top-level dispatch
    and the test-vector generator), the steps of the step-by-step view
    and the validation effect of the application, and proves their
    properties.

    Conventions of the embedding:
    - a JavaScript string is the list of its UTF-16 code units ([jsstring]);
    - a [Uint8Array] is a [list byte];
    - a JavaScript [number] that holds a byte value, a code unit or a
      5-bit word is a [Z], a length or an offset a [nat]; a [BigInt] is
      a [Z];
    - a [throw] is the left injection of a sum, a [catch] a match on it;
    - [Math.random] is an explicit stream of draws in the unit interval. *)

From Stdlib Require Import String Ascii.
From Stdlib Require Import List NArith ZArith Lia Bool QArith Qround.
From Stdlib.Strings Require Import Byte.
From Equations Require Import Equations.
Import ListNotations.

Local Open Scope Z_scope.

(* ===================================================================== *)
(** ** JavaScript strings and the primitives the validator uses           *)
(* ===================================================================== *)

Module JS.

(** A string is its sequence of UTF-16 code units. *)
Definition jsstring := list Z.

(** A string literal of the source text (ASCII only). *)
Definition lit (s : string) : jsstring :=
  map (fun a => Z.of_N (N_of_ascii a)) (list_ascii_of_string s).
Arguments lit s%_string.

(** Code units removed by [String.prototype.trim]: the ECMAScript
    WhiteSpace and LineTerminator productions. *)
Definition isWhiteSpace (c : Z) : bool :=
  existsb (Z.eqb c)
    [9; 10; 11; 12; 13; 32; 160; 5760; 8232; 8233; 8239; 8287; 12288; 65279]
  || ((8192 <=? c) && (c <=? 8202)).

Fixpoint trimStart (s : jsstring) : jsstring :=
  match s with
  | c :: s' => if isWhiteSpace c then trimStart s' else s
  | [] => []
  end.

Definition trimEnd (s : jsstring) : jsstring := rev (trimStart (rev s)).

(** [s.trim()] *)
Definition trim (s : jsstring) : jsstring := trimEnd (trimStart s).

(** [s.startsWith(p)] *)
Fixpoint startsWith (s p : jsstring) {struct p} : bool :=
  match p, s with
  | [], _ => true
  | c :: p', d :: s' => (c =? d) && startsWith s' p'
  | _ :: _, [] => false
  end.

(** [s.slice(n)] for a non-negative [n]. *)
Definition sliceFrom (s : jsstring) (n : nat) : jsstring := skipn n s.

(** [s.padStart(n, c)] for a one-character filler [c]. *)
Definition padStart (s : jsstring) (n : nat) (c : Z) : jsstring :=
  repeat c (n - length s) ++ s.

(** Strict string equality [===]. *)
Definition streq (s t : jsstring) : bool :=
  if list_eq_dec Z.eq_dec s t then true else false.

(** Value of a hexadecimal digit, both cases. *)
Definition hexValue (c : Z) : option Z :=
  if (48 <=? c) && (c <=? 57) then Some (c - 48)
  else if (97 <=? c) && (c <=? 102) then Some (c - 87)
  else if (65 <=? c) && (c <=? 70) then Some (c - 55)
  else None.

Definition isHexDigit (c : Z) : bool :=
  match hexValue c with Some _ => true | None => false end.

(** [/^[0-9a-fA-F]+$/.test(s)]: without the [m] flag [$] matches at the
    end of the input only. *)
Definition test_hex (s : jsstring) : bool :=
  match s with
  | [] => false
  | _ => forallb isHexDigit s
  end.

(** Hexadecimal digits read left to right onto an accumulator. *)
Fixpoint parseHexFrom (acc : Z) (s : jsstring) {struct s} : option Z :=
  match s with
  | [] => Some acc
  | c :: s' =>
      match hexValue c with
      | Some d => parseHexFrom (16 * acc + d) s'
      | None => None
      end
  end.

(** [BigInt(s)] for the strings this program passes, which all start
    with [0x]: the value of the hexadecimal literal, or [None] for the
    [SyntaxError] that [BigInt] throws when no digit follows the prefix
    or a character is not a hexadecimal digit. *)
Definition BigInt (s : jsstring) : option Z :=
  match s with
  | 48 :: 120 :: (_ :: _) as digits => parseHexFrom 0 digits
  | _ => None
  end.

Definition digitChar (d : Z) : Z :=
  if d <? 10 then 48 + d else 87 + d.

Fixpoint digitsFrom (fuel : nat) (radix n : Z) {struct fuel} : jsstring :=
  match fuel with
  | O => []
  | S fuel' =>
      if n <? radix then [digitChar n]
      else digitsFrom fuel' radix (n / radix) ++ [digitChar (n mod radix)]
  end.

(** [n.toString(radix)] for an integer [n]: lower-case digits, most
    significant first, a minus sign before a negative number. *)
Definition toStringRadix (radix n : Z) : jsstring :=
  if n <? 0 then 45 :: digitsFrom (S (Z.to_nat (Z.log2 (- n)))) radix (- n)
  else digitsFrom (S (Z.to_nat (Z.log2 n))) radix n.

(** [String(n)] and the interpolation of an integer in a template. *)
Definition toString (n : Z) : jsstring := toStringRadix 10 n.

(** The number held by an element of a [Uint8Array]. *)
Definition byteVal (b : byte) : Z := Z.of_N (Byte.to_N b).

(** Storing a number in a [Uint8Array] keeps its low eight bits. *)
Definition toUint8 (n : Z) : byte :=
  match Byte.of_N (Z.to_N (n mod 256)) with
  | Some b => b
  | None => x00
  end.

(** [bytes[i]]; the program reads inside the array only, the default
    stands for the [undefined] of a read outside it. *)
Definition byteAt (bytes : list byte) (i : nat) : Z :=
  byteVal (nth i bytes x00).

(** [bytes.slice(from, to)] and [bytes.slice(from)] *)
Definition sliceBytes (bytes : list byte) (from to : nat) : list byte :=
  firstn (to - from) (skipn from bytes).

(** The operand conversion of the bitwise operators: a number is taken
    modulo [2^32] into the signed 32-bit range. *)
Definition toInt32 (n : Z) : Z := (n + 2 ^ 31) mod 2 ^ 32 - 2 ^ 31.

(** [a << b], [a >> b], [a & b], [a | b], [a ^ b] on 32-bit integers. *)
Definition shl (a b : Z) : Z := toInt32 (Z.shiftl (toInt32 a) (b mod 32)).
Definition sar (a b : Z) : Z := Z.shiftr (toInt32 a) (b mod 32).
Definition band (a b : Z) : Z := Z.land (toInt32 a) (toInt32 b).
Definition bor (a b : Z) : Z := Z.lor (toInt32 a) (toInt32 b).
Definition bxor (a b : Z) : Z := Z.lxor (toInt32 a) (toInt32 b).

(** [s.includes(p)] *)
Fixpoint includes (s p : jsstring) {struct s} : bool :=
  startsWith s p
  || match s with
     | [] => false
     | _ :: s' => includes s' p
     end.

(** [/^0x[0-9a-fA-F]*$/.test(s)] *)
Definition test_0x_hex (s : jsstring) : bool :=
  startsWith s (lit "0x") && forallb isHexDigit (skipn 2 s).

(** [s.toUpperCase()] for a string of ASCII characters. *)
Definition toUpperCase (s : jsstring) : jsstring :=
  map (fun c => if (97 <=? c) && (c <=? 122) then c - 32 else c) s.

(** A value that was thrown: an [Error] object with its message, or
    anything else. *)
Inductive thrown : Type :=
| ErrorObject (message : jsstring)
| OtherValue.

(** [error instanceof Error ? error.message : "Unknown error"] *)
Definition messageOf (e : thrown) : jsstring :=
  match e with
  | ErrorObject m => m
  | OtherValue => lit "Unknown error"
  end.

End JS.

Import JS.

(* ===================================================================== *)
(** ** Data model                                                         *)
(* ===================================================================== *)

Inductive AddressFormat : Type :=
| legacy
| public
| shielded
| unified
| unknown.

Record Receiver : Type := mkReceiver {
  type : Z;
  data : list byte;
  description : option jsstring
}.

Record ParsedData : Type := mkParsed {
  hrp : option jsstring;
  version : option Z;
  payload : option (list byte);
  receivers : option (list Receiver);
  felt252 : option jsstring;
  checksum : option jsstring
}.

Record ValidationResult : Type := mkResult {
  isValid : bool;
  format : AddressFormat;
  error : option jsstring;
  parsed : option ParsedData
}.

(** The object literal of every failing return. *)
Definition invalid (f : AddressFormat) (e : jsstring) : ValidationResult :=
  {| isValid := false; format := f; error := Some e; parsed := None |}.

(** The object literal of every succeeding return. *)
Definition valid (f : AddressFormat) (p : ParsedData) : ValidationResult :=
  {| isValid := true; format := f; error := None; parsed := Some p |}.

(** [result.parsed?.felt252] *)
Definition feltOf (r : ValidationResult) : option jsstring :=
  match parsed r with Some p => felt252 p | None => None end.

(** [result.parsed?.receivers] *)
Definition receiversOf (r : ValidationResult) : option (list Receiver) :=
  match parsed r with Some p => receivers p | None => None end.

(** ** Constants *)

Module STARKNET_HRPS.
Definition public : jsstring := lit "strk".
Definition shielded : jsstring := lit "strkx".
Definition unified : jsstring := lit "strku".
End STARKNET_HRPS.

Definition FELT252_MAX : Z := 2 ^ 251 - 1.

Module TLV_TYPES.
Definition PUBLIC_KEY : Z := 0.
Definition SHIELDED : Z := 1.
End TLV_TYPES.

(* ===================================================================== *)
(** ** Format detection and the legacy validator                          *)
(* ===================================================================== *)

Definition detectAddressFormat (input : jsstring) : AddressFormat :=
  let trimmed := trim input in
  if startsWith trimmed (lit "0x") then legacy
  else if startsWith trimmed (lit "strk1") then public
  else if startsWith trimmed (lit "strkx1") then shielded
  else if startsWith trimmed (lit "strku1") then unified
  else unknown.

Definition validateLegacyAddress (input : jsstring) : ValidationResult :=
  let trimmed := trim input in
  if negb (startsWith trimmed (lit "0x")) then
    invalid legacy (lit "Legacy address must start with 0x")
  else
    let hexPart := sliceFrom trimmed 2 in
    if (length hexPart =? 0)%nat then
      invalid legacy (lit "Address cannot be empty after 0x")
    else if negb (test_hex hexPart) then
      invalid legacy (lit "Address contains invalid hexadecimal characters")
    else if (64 <? length hexPart)%nat then
      invalid legacy (lit "Address is too long (max 64 hex characters)")
    else
      let paddedHex := padStart hexPart 64 48 in
      match BigInt (lit "0x" ++ paddedHex) with
      | Some bigIntValue =>
          if FELT252_MAX <? bigIntValue then
            invalid legacy (lit "Address exceeds felt252 maximum value (2^251 - 1)")
          else
            valid legacy
              {| hrp := None; version := None; payload := None;
                 receivers := None; felt252 := Some (lit "0x" ++ paddedHex);
                 checksum := None |}
      | None => invalid legacy (lit "Failed to parse address as number")
      end.


(* ===================================================================== *)
(** ** The flat (public / shielded) validator                             *)
(* ===================================================================== *)

(** [Array.from(bytes, (b) => b.toString(16).padStart(2, "0")).join("")] *)
Definition bytesToHex (bytes : list byte) : jsstring :=
  concat (map (fun b => padStart (toStringRadix 16 (byteVal b)) 2 48) bytes).

Definition validateSimpleAddress
  (format : AddressFormat) (hrp : jsstring) (version : Z) (data : list byte)
  : ValidationResult :=
  if negb (version =? 1) then
    invalid format
      (lit "Unsupported version: " ++ toString version ++ lit " (expected 1)")
  else if negb (length data =? 32)%nat then
    invalid format
      (lit "Invalid data length: " ++ toString (Z.of_nat (length data))
         ++ lit " bytes (expected 32)")
  else
    match BigInt (lit "0x" ++ bytesToHex data) with
    | Some bigIntValue =>
        if FELT252_MAX <? bigIntValue then
          invalid format (lit "Address exceeds felt252 maximum value (2^251 - 1)")
        else
          let felt252 := lit "0x" ++ bytesToHex data in
          valid format
            {| hrp := Some hrp; version := Some version; payload := Some data;
               receivers := None; felt252 := Some felt252; checksum := None |}
    | None => invalid format (lit "Failed to parse address data")
    end.

(* ===================================================================== *)
(** ** The unified (TLV) validator                                        *)
(* ===================================================================== *)

(** The [while (offset < data.length)] loop. It ends either in one of the
    [return] statements of its body ([inl]) or by leaving the loop with the
    receivers pushed so far ([inr]). *)
Equations? parseTLV (data : list byte) (offset : nat) (receivers : list Receiver)
  : ValidationResult + list Receiver by wf (length data - offset)%nat lt :=
  parseTLV data offset receivers with lt_dec offset (length data) => {
    | right _ := inr receivers
    | left _ :=
        if (length data <? offset + 2)%nat then
          inl (invalid unified
                 (lit "Incomplete TLV record: missing type or length"))
        else
          let type := byteAt data offset in
          let length_ := byteAt data (offset + 1) in
          let offset1 := (offset + 2)%nat in
          if (length data <? offset1 + Z.to_nat length_)%nat then
            inl (invalid unified
                   (lit "Incomplete TLV record: expected " ++ toString length_
                      ++ lit " bytes but only "
                      ++ toString (Z.of_nat (length data - offset1))
                      ++ lit " remaining"))
          else
            let receiverData :=
              sliceBytes data offset1 (offset1 + Z.to_nat length_) in
            let offset2 := (offset1 + Z.to_nat length_)%nat in
            if type =? TLV_TYPES.PUBLIC_KEY then
              if negb (length_ =? 32) then
                inl (invalid unified
                       (lit "Invalid public key length: " ++ toString length_
                          ++ lit " bytes (expected 32)"))
              else
                parseTLV data offset2
                  (receivers ++
                     [mkReceiver type receiverData
                        (Some (lit "Public key receiver"))])
            else if type =? TLV_TYPES.SHIELDED then
              if negb (length_ =? 32) then
                inl (invalid unified
                       (lit "Invalid shielded receiver length: "
                          ++ toString length_ ++ lit " bytes (expected 32)"))
              else
                parseTLV data offset2
                  (receivers ++
                     [mkReceiver type receiverData
                        (Some (lit "Shielded receiver"))])
            else
              parseTLV data offset2
                (receivers ++
                   [mkReceiver type receiverData
                      (Some (lit "Unknown receiver type " ++ toString type))])
  }.
Proof. all: lia. Qed.

Definition validateUnifiedAddress
  (hrp : jsstring) (version : Z) (data : list byte) : ValidationResult :=
  if negb (version =? 1) then
    invalid unified
      (lit "Unsupported version: " ++ toString version ++ lit " (expected 1)")
  else
    match parseTLV data 0 [] with
    | inl result => result
    | inr receivers =>
        if (length receivers =? 0)%nat then
          invalid unified
            (lit "Unified address must contain at least one receiver")
        else
          valid unified
            {| hrp := Some hrp; version := Some version; payload := Some data;
               receivers := Some receivers; felt252 := None; checksum := None |}
    end.

(* ===================================================================== *)
(** ** The Bech32 collaborator, the Bech32 validator and the dispatch     *)
(* ===================================================================== *)

(** The four operations of the imported [bech32] object that the program
    calls. The package is an external dependency: the validator is stated
    over any implementation of this interface. *)
Record Bech32Library : Type := {
  decode : jsstring -> thrown + (jsstring * list Z);
  fromWords : list Z -> thrown + list Z;
  toWords : list Z -> list Z;
  encode : jsstring -> list Z -> thrown + jsstring
}.

Section Validator.

Variable bech32 : Bech32Library.

(** The [catch] clause of [validateBech32Address]. *)
Definition decodeError (expectedFormat : AddressFormat) (e : thrown)
  : ValidationResult :=
  invalid expectedFormat (lit "Bech32 decode error: " ++ messageOf e).

Definition validateBech32Address
  (input : jsstring) (expectedFormat : AddressFormat) : ValidationResult :=
  let trimmed := trim input in
  match decode bech32 trimmed with
  | inl e => decodeError expectedFormat e
  | inr (prefix, words) =>
      let expectedHrp :=
        match expectedFormat with
        | public => STARKNET_HRPS.public
        | shielded => STARKNET_HRPS.shielded
        | unified => STARKNET_HRPS.unified
        | _ => []
        end in
      if negb (streq prefix expectedHrp) then
        invalid expectedFormat
          (lit "Invalid HRP: expected " ++ expectedHrp ++ lit ", got " ++ prefix)
      else
        match fromWords bech32 words with
        | inl e => decodeError expectedFormat e
        | inr bytes =>
            let payload := map toUint8 bytes in
            if (length payload =? 0)%nat then
              invalid expectedFormat (lit "Empty payload")
            else
              let version := byteAt payload 0 in
              let data := skipn 1 payload in
              match expectedFormat with
              | unified => validateUnifiedAddress prefix version data
              | _ => validateSimpleAddress expectedFormat prefix version data
              end
        end
  end.

Definition validateStarknetAddress (input : jsstring) : ValidationResult :=
  match input with
  | [] => invalid unknown (lit "Input must be a non-empty string")
  | _ =>
      match detectAddressFormat input with
      | legacy => validateLegacyAddress input
      | public => validateBech32Address input public
      | shielded => validateBech32Address input shielded
      | unified => validateBech32Address input unified
      | unknown =>
          invalid unknown
            (lit "Unknown address format. Supported formats: 0x... (legacy), strk1... (public), strkx1... (shielded), strku1... (unified)")
      end
  end.

End Validator.

(* ===================================================================== *)
(** ** The test-vector generator                                          *)
(* ===================================================================== *)

Section Generator.

Variable bech32 : Bech32Library.

(** The successive results of [Math.random()], in call order. *)
Variable random : nat -> Q.

(** [Math.floor(r * 256)] and [Math.floor(r * 16).toString(16)] for a
    draw [r]. *)
Definition randomByte (r : Q) : Z := Qfloor (r * 256).
Definition randomHex (r : Q) : jsstring := toStringRadix 16 (Qfloor (r * 16)).

(** The [n] draws made from call number [pos] on. *)
Definition draws (pos n : nat) : list Q := map random (seq pos n).

(** The [do ... while] loop of the legacy case, [pos] draws already
    made. [None]: the loop has not ended within [fuel] rounds. *)
Fixpoint legacyLoop (fuel pos : nat) : option (thrown + jsstring) :=
  match fuel with
  | O => None
  | S fuel' =>
      let hexAddr := concat (map randomHex (draws pos 64)) in
      let hexAddr := lit "0" ++ sliceFrom hexAddr 1 in
      match BigInt (lit "0x" ++ hexAddr) with
      | Some value =>
          if FELT252_MAX <? value then legacyLoop fuel' (pos + 64)
          else Some (inr (lit "0x" ++ hexAddr))
      | None => Some (inl (ErrorObject (lit "Cannot convert to a BigInt")))
      end
  end.

(** A fresh 32-byte array filled by 32 calls of [randomByte], then
    [a[0] = a[0] & 0x0f]. *)
Definition randomMasked : list byte :=
  match map (fun r => toUint8 (randomByte r)) (draws 0 32) with
  | b :: rest => toUint8 (band (byteVal b) 15) :: rest
  | [] => []
  end.

(** [bech32.encode(hrp, bech32.toWords(payload))] inside its [try],
    with the literal returned by the [catch]. *)
Definition encodeOr (hrp : jsstring) (payload : list byte) (fallback : jsstring)
  : jsstring :=
  match encode bech32 hrp (toWords bech32 (map byteVal payload)) with
  | inr address => address
  | inl _ => fallback
  end.

Definition generateTestVector (fuel : nat) (format : AddressFormat)
  : option (thrown + jsstring) :=
  match format with
  | legacy => legacyLoop fuel 0
  | public =>
      let addressData := randomMasked in
      let payload := toUint8 1 :: addressData in
      Some (inr (encodeOr STARKNET_HRPS.public payload
        (lit "strk1qqqqqqqqqqqqqqqqqqqqqqqqqqqqqqqqqqqqqqqqqqqqqqqqqqqqqqqqqqqqqqqfc6h6a")))
  | shielded =>
      let addressData := randomMasked in
      let payload := toUint8 1 :: addressData in
      Some (inr (encodeOr STARKNET_HRPS.shielded payload
        (lit "strkx1qqqqqqqqqqqqqqqqqqqqqqqqqqqqqqqqqqqqqqqqqqqqqqqqqqqqqqqqqqqqqq7cs4az")))
  | unified =>
      let receiverData := randomMasked in
      let tlvData :=
        toUint8 TLV_TYPES.PUBLIC_KEY :: toUint8 32 :: receiverData in
      let payload := toUint8 1 :: tlvData in
      Some (inr (encodeOr STARKNET_HRPS.unified payload
        (lit "strku1qqqqqsqqqqqqqqqqqqqqqqqqqqqqqqqqqqqqqqqqqqqqqqqqqqqqqqqqqqqqqqqqqqqqqh9k5w4")))
  | unknown =>
      Some (inl (ErrorObject
        (lit "Cannot generate test vector for format: unknown")))
  end.

End Generator.

(* ===================================================================== *)
(** ** A model of the [bech32] package                                    *)
(* ===================================================================== *)

(** The [bech32] export of the npm package of that name (version 2), the
    library the validator imports. Case conversion is modelled on the
    ASCII letters, which is all a Bech32 string may contain. *)
Module Bech32.

Definition ALPHABET : jsstring := lit "qpzry9x8gf2tvdw0s3jn54khce6mua7l".

Fixpoint indexFrom (i : Z) (c : Z) (s : jsstring) {struct s} : option Z :=
  match s with
  | [] => None
  | d :: s' => if c =? d then Some i else indexFrom (i + 1) c s'
  end.

(** [ALPHABET_MAP[c]], [None] for [undefined]. *)
Definition ALPHABET_MAP (c : Z) : option Z := indexFrom 0 c ALPHABET.

(** [ALPHABET.charAt(x)], the empty string outside the alphabet. *)
Definition charAt (x : Z) : jsstring :=
  if (0 <=? x) && (x <? 32) then [nth (Z.to_nat x) ALPHABET 0] else [].

Definition toLowerCase (s : jsstring) : jsstring :=
  map (fun c => if (65 <=? c) && (c <=? 90) then c + 32 else c) s.

Definition toUpperCase (s : jsstring) : jsstring :=
  map (fun c => if (97 <=? c) && (c <=? 122) then c - 32 else c) s.

Definition polymodStep (pre : Z) : Z :=
  let b := sar pre 25 in
  bxor (bxor (bxor (bxor (bxor
    (shl (band pre 0x1ffffff) 5)
    (band (- band (sar b 0) 1) 0x3b6a57b2))
    (band (- band (sar b 1) 1) 0x26508e6d))
    (band (- band (sar b 2) 1) 0x1ea119fa))
    (band (- band (sar b 3) 1) 0x3d4233dd))
    (band (- band (sar b 4) 1) 0x2a1462b3).

(** The first loop of [prefixChk]: the high bits of each character, or
    the character that is out of range. *)
Fixpoint prefixHigh (chk : Z) (s : jsstring) {struct s} : option Z :=
  match s with
  | [] => Some chk
  | c :: s' =>
      if (c <? 33) || (126 <? c) then None
      else prefixHigh (bxor (polymodStep chk) (sar c 5)) s'
  end.

(** The second loop of [prefixChk]: the low bits of each character. *)
Fixpoint prefixLow (chk : Z) (s : jsstring) {struct s} : Z :=
  match s with
  | [] => chk
  | v :: s' => prefixLow (bxor (polymodStep chk) (band v 0x1f)) s'
  end.

(** [prefixChk(prefix)]: a checksum state, or an error text. *)
Definition prefixChk (prefix : jsstring) : jsstring + Z :=
  match prefixHigh 1 prefix with
  | None => inl (lit "Invalid prefix (" ++ prefix ++ lit ")")
  | Some chk => inr (prefixLow (polymodStep chk) prefix)
  end.

(** The inner [while (bits >= outBits)] loop of [convert]. *)
Fixpoint drain (fuel : nat) (value bits outBits maxV : Z) (result : list Z)
  {struct fuel} : Z * list Z :=
  match fuel with
  | O => (bits, result)
  | S fuel' =>
      if outBits <=? bits then
        let bits := bits - outBits in
        drain fuel' value bits outBits maxV
          (result ++ [band (sar value bits) maxV])
      else (bits, result)
  end.

(** The [for] loop of [convert]. *)
Fixpoint convertLoop (data : list Z) (inBits outBits maxV value bits : Z)
  (result : list Z) {struct data} : Z * Z * list Z :=
  match data with
  | [] => (value, bits, result)
  | d :: data' =>
      let value := bor (shl value inBits) d in
      let bits := bits + inBits in
      let '(bits, result) :=
        drain (Z.to_nat bits) value bits outBits maxV result in
      convertLoop data' inBits outBits maxV value bits result
  end.

(** [convert(data, inBits, outBits, pad)]: the regrouped values, or an
    error text. *)
Definition convert (data : list Z) (inBits outBits : Z) (pad : bool)
  : jsstring + list Z :=
  let maxV := shl 1 outBits - 1 in
  let '(value, bits, result) :=
    convertLoop data inBits outBits maxV 0 0 [] in
  if pad then
    if 0 <? bits then
      inr (result ++ [band (shl value (outBits - bits)) maxV])
    else inr result
  else
    if inBits <=? bits then inl (lit "Excess padding")
    else if negb (band (shl value (outBits - bits)) maxV =? 0) then
      inl (lit "Non-zero padding")
    else inr result.

Definition toWords (bytes : list Z) : list Z :=
  match convert bytes 8 5 true with
  | inr words => words
  | inl _ => []
  end.

Definition fromWords (words : list Z) : thrown + list Z :=
  match convert words 5 8 false with
  | inr bytes => inr bytes
  | inl res => inl (ErrorObject res)
  end.

Definition ENCODING_CONST : Z := 1.
Definition LIMIT : Z := 90.

(** The loop of [encode] over the words. *)
Fixpoint encodeWords (chk : Z) (result : jsstring) (words : list Z)
  {struct words} : thrown + (Z * jsstring) :=
  match words with
  | [] => inr (chk, result)
  | x :: words' =>
      if negb (sar x 5 =? 0) then inl (ErrorObject (lit "Non 5-bit word"))
      else encodeWords (bxor (polymodStep chk) x) (result ++ charAt x) words'
  end.

Definition encode (prefix : jsstring) (words : list Z) : thrown + jsstring :=
  if LIMIT <? Z.of_nat (length prefix) + 7 + Z.of_nat (length words) then
    inl (ErrorObject (lit "Exceeds length limit"))
  else
    let prefix := toLowerCase prefix in
    match prefixChk prefix with
    | inl chk => inl (ErrorObject chk)
    | inr chk =>
        match encodeWords chk (prefix ++ lit "1") words with
        | inl e => inl e
        | inr (chk, result) =>
            let chk := Nat.iter 6 polymodStep chk in
            let chk := bxor chk ENCODING_CONST in
            inr (fold_left
                   (fun result i =>
                      let v := band (sar chk ((5 - i) * 5)) 0x1f in
                      result ++ charAt v)
                   [0; 1; 2; 3; 4; 5] result)
        end
    end.

(** [str.lastIndexOf("1")], [None] for [-1]. *)
Fixpoint lastIndexOf1 (i : nat) (s : jsstring) (found : option nat)
  {struct s} : option nat :=
  match s with
  | [] => found
  | c :: s' => lastIndexOf1 (S i) s' (if c =? 49 then Some i else found)
  end.

(** The loop of [__decode] over the characters after the separator;
    [i] counts them, [n] is their number. *)
Fixpoint decodeWords (chk : Z) (words : list Z) (i n : nat) (wordChars : jsstring)
  {struct wordChars} : jsstring + (Z * list Z) :=
  match wordChars with
  | [] => inr (chk, words)
  | c :: rest =>
      match ALPHABET_MAP c with
      | None => inl (lit "Unknown character " ++ [c])
      | Some v =>
          let chk := bxor (polymodStep chk) v in
          if (n <=? i + 6)%nat then decodeWords chk words (S i) n rest
          else decodeWords chk (words ++ [v]) (S i) n rest
      end
  end.

(** [__decode(str)]: the prefix and the words, or an error text. *)
Definition decode_ (str : jsstring) : jsstring + (jsstring * list Z) :=
  if (length str <? 8)%nat then inl (str ++ lit " too short")
  else if LIMIT <? Z.of_nat (length str) then inl (lit "Exceeds length limit")
  else
    let lowered := toLowerCase str in
    let uppered := toUpperCase str in
    if negb (streq str lowered) && negb (streq str uppered) then
      inl (lit "Mixed-case string " ++ str)
    else
      let str := lowered in
      match lastIndexOf1 0 str None with
      | None => inl (lit "No separator character for " ++ str)
      | Some O => inl (lit "Missing prefix for " ++ str)
      | Some split =>
          let prefix := firstn split str in
          let wordChars := skipn (split + 1) str in
          if (length wordChars <? 6)%nat then inl (lit "Data too short")
          else
            match prefixChk prefix with
            | inl chk => inl chk
            | inr chk =>
                match decodeWords chk [] 0 (length wordChars) wordChars with
                | inl res => inl res
                | inr (chk, words) =>
                    if negb (chk =? ENCODING_CONST) then
                      inl (lit "Invalid checksum for " ++ str)
                    else inr (prefix, words)
                end
            end
      end.

(** [decode(str)]: [__decode], its error text thrown as an [Error]. *)
Definition decode (str : jsstring) : thrown + (jsstring * list Z) :=
  match decode_ str with
  | inr res => inr res
  | inl res => inl (ErrorObject res)
  end.

Definition library : Bech32Library :=
  Build_Bech32Library decode fromWords toWords encode.

End Bech32.

(* ===================================================================== *)
(** ** The step-by-step validator and the application                     *)
(* ===================================================================== *)

(** The string that a format tag is. *)
Definition tagOf (f : AddressFormat) : jsstring :=
  match f with
  | legacy => lit "legacy"
  | public => lit "public"
  | shielded => lit "shielded"
  | unified => lit "unified"
  | unknown => lit "unknown"
  end.

(** The pure part of the [StepByStepValidator] component: the steps it
    lays out for an address and what running one step yields. The two
    readings of [Date.now()] that a run makes are arguments; the delay
    before a run has no part in what it returns. *)
Module StepByStepValidator.

Inductive StepStatus : Type :=
| StatusPending
| StatusRunning
| StatusSuccess
| StatusError.

Record ValidationStep : Type := mkStep {
  id : jsstring;
  title : jsstring;
  description : jsstring;
  status : StepStatus;
  result : option jsstring;
  details : option jsstring;
  duration : option Z
}.

(** A step literal of [initializeSteps]. *)
Definition pendingStep (id title description : jsstring) : ValidationStep :=
  mkStep id title description StatusPending None None None.

Definition initializeSteps (addressInput : jsstring) : list ValidationStep :=
  let format := detectAddressFormat addressInput in
  let baseSteps :=
    [pendingStep (lit "format-detection") (lit "Format Detection")
       (lit "Identify address format from prefix");
     pendingStep (lit "structure-validation") (lit "Structure Validation")
       (lit "Check length, characters, and basic format")] in
  let baseSteps :=
    match format with
    | legacy | unknown => baseSteps
    | _ =>
        baseSteps ++
          [pendingStep (lit "checksum-verification") (lit "Checksum Verification")
             (lit "Verify Bech32m error detection code")]
    end in
  let baseSteps :=
    baseSteps ++
      [pendingStep (lit "felt252-constraint") (lit "Felt252 Constraint Check")
         (lit "Ensure address fits in field element (< 2" ++ [178; 8309; 185]
            ++ lit " - 1)")] in
  let baseSteps :=
    match format with
    | unified =>
        baseSteps ++
          [pendingStep (lit "tlv-parsing") (lit "TLV Structure Parsing")
             (lit "Parse Type-Length-Value records in unified address")]
    | _ => baseSteps
    end in
  baseSteps ++
    [pendingStep (lit "final-validation") (lit "Final validation")
       (lit "Compile results and generate validation report")].

(** [formatDescriptions[format]] *)
Definition formatDescriptions (f : AddressFormat) : jsstring :=
  match f with
  | legacy => lit "Legacy hex format (0x...)"
  | public => lit "SNIP-42 public address (strk1...)"
  | shielded => lit "SNIP-42 shielded address (strkx1...)"
  | unified => lit "SNIP-43 unified address (strku1...)"
  | unknown => lit "Unknown or invalid format"
  end.

(** [expectedPrefixes[format]] for the three Bech32 formats. *)
Definition expectedPrefixes (f : AddressFormat) : jsstring :=
  match f with
  | public => lit "strk1"
  | shielded => lit "strkx1"
  | unified => lit "strku1"
  | _ => []
  end.

Section Run.

Variable bech32 : Bech32Library.

(** The outcome of the [structure-validation] case: [isValid] and
    [details]. *)
Definition structureCheck (addressInput : jsstring) : bool * jsstring :=
  let format := detectAddressFormat addressInput in
  match trim addressInput with
  | [] => (false, lit "Empty address input")
  | _ =>
      match format with
      | legacy =>
          if negb (startsWith addressInput (lit "0x")) then
            (false, lit "Missing 0x prefix")
          else if negb (test_0x_hex addressInput) then
            (false, lit "Invalid hexadecimal characters")
          else if (66 <? length addressInput)%nat then
            (false, lit "Too long (max 66 characters)")
          else
            (true,
             lit "Valid hex structure ("
               ++ toString (Z.of_nat (length addressInput)) ++ lit " chars)")
      | unknown => (false, lit "Unknown format cannot be validated")
      | _ =>
          let expectedPrefix := expectedPrefixes format in
          if negb (startsWith addressInput expectedPrefix) then
            (false, lit "Missing " ++ expectedPrefix ++ lit " prefix")
          else
            (true,
             lit "Valid " ++ tagOf format ++ lit " structure with "
               ++ expectedPrefix ++ lit " prefix")
      end
  end.

(** [runValidationStep(step, addressInput)], with [startTime] the reading
    of the clock before the [switch] and [finishTime] the one made by the
    case that is taken. [updated] is the object literal each case builds
    over [{ ...step, status: "running" }]. The only [throw] is the one of
    the checksum case, caught there; [validateStarknetAddress] returns a
    result on every input, so the other [catch] clauses are not
    entered. *)
Definition runValidationStep (startTime finishTime : Z)
  (step : ValidationStep) (addressInput : jsstring) : ValidationStep :=
  let updated (status : StepStatus) (result details : jsstring) :=
    {| id := id step; title := title step; description := description step;
       status := status; result := Some result; details := Some details;
       duration := Some (finishTime - startTime) |} in
  if streq (id step) (lit "format-detection") then
    let format := detectAddressFormat addressInput in
    updated
      (match format with unknown => StatusError | _ => StatusSuccess end)
      (toUpperCase (tagOf format)) (formatDescriptions format)
  else if streq (id step) (lit "structure-validation") then
    let '(isValid, details) := structureCheck addressInput in
    updated (if isValid then StatusSuccess else StatusError)
      (if isValid then lit "PASS" else lit "FAIL") details
  else if streq (id step) (lit "checksum-verification") then
    match detectAddressFormat addressInput with
    | unknown | legacy =>
        updated StatusError (lit "ERROR") (lit "No checksum for this format")
    | _ =>
        let hasValidChecksum := (8 <? length addressInput)%nat in
        updated (if hasValidChecksum then StatusSuccess else StatusError)
          (if hasValidChecksum then lit "VALID" else lit "INVALID")
          (if hasValidChecksum then lit "Bech32m checksum verification passed"
           else lit "Checksum verification failed")
    end
  else if streq (id step) (lit "felt252-constraint") then
    let result := validateStarknetAddress bech32 addressInput in
    let passesConstraint :=
      match error result with
      | Some e => negb (includes e (lit "exceeds felt252 maximum"))
      | None => true
      end in
    updated (if passesConstraint then StatusSuccess else StatusError)
      (if passesConstraint then lit "WITHIN LIMIT" else lit "EXCEEDS LIMIT")
      (if passesConstraint
       then lit "Address value is within felt252 field element limit"
       else lit "Address value exceeds 2" ++ [178; 8309; 185]
              ++ lit " - 1 maximum")
  else if streq (id step) (lit "tlv-parsing") then
    let result := validateStarknetAddress bech32 addressInput in
    match isValid result, receiversOf result with
    | true, Some receivers =>
        updated StatusSuccess
          (toString (Z.of_nat (length receivers)) ++ lit " RECEIVERS")
          (lit "Parsed " ++ toString (Z.of_nat (length receivers))
             ++ lit " receiver(s) from TLV structure")
    | _, _ =>
        updated StatusError (lit "PARSE FAILED")
          (lit "Could not parse TLV structure")
    end
  else if streq (id step) (lit "final-validation") then
    let result := validateStarknetAddress bech32 addressInput in
    updated (if isValid result then StatusSuccess else StatusError)
      (if isValid result then lit "VALID ADDRESS" else lit "INVALID ADDRESS")
      (if isValid result then
         lit "Address is valid " ++ tagOf (format result) ++ lit " format"
       else
         match error result with
         | Some (c :: e) => c :: e
         | _ => lit "Address validation failed"
         end)
  else
    updated StatusError (lit "UNKNOWN STEP") (lit "Unknown validation step").

End Run.

End StepByStepValidator.

(** The effect of [App] that runs when [address] changes: the value it
    stores as [validationResult], [None] for [null]. *)
Definition App_validationResult (bech32 : Bech32Library) (address : jsstring)
  : option ValidationResult :=
  match trim address with
  | [] => None
  | _ => Some (validateStarknetAddress bech32 address)
  end.

(* ===================================================================== *)
(** ** Notions used to state the properties                               *)
(* ===================================================================== *)

(** The value of a hexadecimal digit; [0] for any other character. *)
Definition digitOf (c : Z) : Z :=
  match hexValue c with Some d => d | None => 0 end.

(** The unsigned integer that a string of hexadecimal digits denotes,
    most significant digit first. *)
Fixpoint hexNumber (h : jsstring) : Z :=
  match h with
  | [] => 0
  | c :: h' => digitOf c * 16 ^ Z.of_nat (length h') + hexNumber h'
  end.

(** The unsigned integer that a byte sequence denotes, big-endian. *)
Fixpoint bigEndian (bytes : list byte) : Z :=
  match bytes with
  | [] => 0
  | b :: bytes' => byteVal b * 256 ^ Z.of_nat (length bytes') + bigEndian bytes'
  end.

(** A digit or a lower-case hexadecimal letter. *)
Definition isLowerHexDigit (c : Z) : bool :=
  ((48 <=? c) && (c <=? 57)) || ((97 <=? c) && (c <=? 102)).

(** An upper-case hexadecimal letter. *)
Definition isUpperHexLetter (c : Z) : bool := (65 <=? c) && (c <=? 70).

(** [0x] followed by exactly 64 lower-case hexadecimal digits. *)
Definition isLowerFelt (s : jsstring) : bool :=
  startsWith s (lit "0x")
  && (length (sliceFrom s 2) =? 64)%nat
  && forallb isLowerHexDigit (sliceFrom s 2).

(** No supported prefix starts the string. *)
Definition noKnownPrefix (s : jsstring) : bool :=
  negb (startsWith s (lit "0x")) && negb (startsWith s (lit "strk1"))
  && negb (startsWith s (lit "strkx1")) && negb (startsWith s (lit "strku1")).

(** *** TLV records on the wire *)

(** The label the parser gives a receiver of type [t]. *)
Definition describeType (t : Z) : jsstring :=
  if t =? TLV_TYPES.PUBLIC_KEY then lit "Public key receiver"
  else if t =? TLV_TYPES.SHIELDED then lit "Shielded receiver"
  else lit "Unknown receiver type " ++ toString t.

Definition isKnownType (t : Z) : bool :=
  (t =? TLV_TYPES.PUBLIC_KEY) || (t =? TLV_TYPES.SHIELDED).

(** The receiver that a record of type [t] and value [v] becomes. *)
Definition receiverOf (rec : byte * list byte) : Receiver :=
  mkReceiver (byteVal (fst rec)) (snd rec) (Some (describeType (byteVal (fst rec)))).

(** A record on the wire: type byte, length byte, value. *)
Definition tlv (rec : byte * list byte) : list byte :=
  fst rec :: toUint8 (Z.of_nat (length (snd rec))) :: snd rec.

(** A sequence of records on the wire. *)
Definition tlvAll (recs : list (byte * list byte)) : list byte :=
  concat (map tlv recs).

(** A record the parser accepts: its value fits the length byte, and has
    32 bytes if the type is one of the two known ones. *)
Definition accepted (rec : byte * list byte) : bool :=
  (length (snd rec) <=? 255)%nat
  && (negb (isKnownType (byteVal (fst rec))) || (length (snd rec) =? 32)%nat).

(** The error for a known type whose declared length is not 32. *)
Definition knownLengthError (t len : Z) : jsstring :=
  if t =? TLV_TYPES.PUBLIC_KEY then
    lit "Invalid public key length: " ++ toString len ++ lit " bytes (expected 32)"
  else
    lit "Invalid shielded receiver length: " ++ toString len
      ++ lit " bytes (expected 32)".

(** The error for a declared length that exceeds the remaining bytes. *)
Definition truncatedError (len : Z) (remaining : nat) : jsstring :=
  lit "Incomplete TLV record: expected " ++ toString len
    ++ lit " bytes but only " ++ toString (Z.of_nat remaining)
    ++ lit " remaining".

(** What one round of the parsing loop does with the record at [offset]:
    it returns from the validator, or goes on from a new offset with one
    more receiver. *)
Definition readRecord (data : list byte) (offset : nat)
  : ValidationResult + (nat * Receiver) :=
  if (length data <? offset + 2)%nat then
    inl (invalid unified (lit "Incomplete TLV record: missing type or length"))
  else
    let type := byteAt data offset in
    let length_ := byteAt data (offset + 1) in
    let offset1 := (offset + 2)%nat in
    if (length data <? offset1 + Z.to_nat length_)%nat then
      inl (invalid unified (truncatedError length_ (length data - offset1)))
    else if isKnownType type && negb (length_ =? 32) then
      inl (invalid unified (knownLengthError type length_))
    else
      inr ((offset1 + Z.to_nat length_)%nat,
           mkReceiver type
             (sliceBytes data offset1 (offset1 + Z.to_nat length_))
             (Some (describeType type))).

(** What the validator returns once the loop has ended. *)
Definition afterLoop (hrp : jsstring) (bytes : list byte)
  (out : ValidationResult + list Receiver) : ValidationResult :=
  match out with
  | inl result => result
  | inr receivers =>
      if (length receivers =? 0)%nat then
        invalid unified (lit "Unified address must contain at least one receiver")
      else
        valid unified
          {| hrp := Some hrp; version := Some 1; payload := Some bytes;
             receivers := Some receivers; felt252 := None; checksum := None |}
  end.

(** The prefix of a Bech32 format. *)
Definition hrpOf (f : AddressFormat) : jsstring :=
  match f with
  | public => STARKNET_HRPS.public
  | shielded => STARKNET_HRPS.shielded
  | unified => STARKNET_HRPS.unified
  | _ => []
  end.

(** A random source whose every draw is [17/32]: [randomByte] gives
    [0x88], which the mask [0x0f] turns into [0x08]. *)
Definition draws_17_32 : nat -> Q := fun _ => 17 # 32.

(** The verdict of the legacy validator as a function of the characters
    [h] that follow [0x] in the trimmed input. *)
Definition legacyVerdict (h : jsstring) : ValidationResult :=
  match h with
  | [] => invalid legacy (lit "Address cannot be empty after 0x")
  | _ =>
      if negb (forallb isHexDigit h) then
        invalid legacy (lit "Address contains invalid hexadecimal characters")
      else if (64 <? length h)%nat then
        invalid legacy (lit "Address is too long (max 64 hex characters)")
      else if FELT252_MAX <? hexNumber h then
        invalid legacy (lit "Address exceeds felt252 maximum value (2^251 - 1)")
      else
        valid legacy
          {| hrp := None; version := None; payload := None; receivers := None;
             felt252 := Some (lit "0x" ++ padStart h 64 48); checksum := None |}
  end.

(** A receiver back on the wire: type byte, length byte, value. *)
Definition wireOf (r : Receiver) : list byte :=
  toUint8 (type r) :: toUint8 (Z.of_nat (length (data r))) :: data r.

(** A result has one of the two shapes of the object literals: a failure
    with an error text and no parsed data, or a success with parsed data
    and no error. *)
Definition wellShaped (r : ValidationResult) : Prop :=
  (isValid r = false /\ (exists e, error r = Some e) /\ parsed r = None)
  \/ (isValid r = true /\ error r = None /\ exists p, parsed r = Some p).

(** The error texts shared by several statements. *)
Definition exceedsFeltMessage : jsstring :=
  lit "Address exceeds felt252 maximum value (2^251 - 1)".

Definition unknownFormatMessage : jsstring :=
  lit "Unknown address format. Supported formats: 0x... (legacy), strk1... (public), strkx1... (shielded), strku1... (unified)".

(** The result of a successful legacy validation with the given
    [felt252] text. *)
Definition legacyOk (felt : jsstring) : ValidationResult :=
  valid legacy
    {| hrp := None; version := None; payload := None; receivers := None;
       felt252 := Some felt; checksum := None |}.

(** The error text of the entry point for an empty input. *)
Definition emptyInputMessage : jsstring :=
  lit "Input must be a non-empty string".

(** What running a step that the runner handles leaves in it: the id,
    title and description it had, a final status, a result that is
    neither [UNKNOWN STEP] nor [ERROR], a text of details and the time
    between the two clock readings. *)
Definition handledOutcome (t0 t1 : Z)
  (step u : StepByStepValidator.ValidationStep) : Prop :=
  StepByStepValidator.id u = StepByStepValidator.id step
  /\ StepByStepValidator.title u = StepByStepValidator.title step
  /\ StepByStepValidator.description u = StepByStepValidator.description step
  /\ (StepByStepValidator.status u = StepByStepValidator.StatusSuccess
      \/ StepByStepValidator.status u = StepByStepValidator.StatusError)
  /\ StepByStepValidator.result u <> None
  /\ StepByStepValidator.result u <> Some (lit "UNKNOWN STEP")
  /\ StepByStepValidator.result u <> Some (lit "ERROR")
  /\ StepByStepValidator.details u <> None
  /\ StepByStepValidator.duration u = Some (t1 - t0).

(** Closed goals are settled by evaluation, conjunct by conjunct. *)
Ltac evaluate :=
  repeat match goal with |- _ /\ _ => split end; vm_compute; reflexivity.

(* ===================================================================== *)
(** ** Strings: trimming, prefixes, hexadecimal numerals                  *)
(* ===================================================================== *)

Lemma isWhiteSpace_range c :
  isWhiteSpace c = true -> c <= 32 \/ 160 <= c.
Proof.
  unfold isWhiteSpace. cbn [existsb].
  rewrite !orb_true_iff, !andb_true_iff, !Z.eqb_eq, !Z.leb_le. lia.
Qed.

Lemma hexValue_range c d : hexValue c = Some d -> 48 <= c <= 102 /\ 0 <= d < 16.
Proof.
  unfold hexValue.
  repeat match goal with
         | |- context [if ?b then _ else _] => destruct b eqn:?
         end;
    intros [=]; subst;
    repeat match goal with
           | H : andb _ _ = true |- _ =>
               apply andb_true_iff in H as [?%Z.leb_le ?%Z.leb_le]
           end; lia.
Qed.

Lemma isHexDigit_not_space c : isHexDigit c = true -> isWhiteSpace c = false.
Proof.
  unfold isHexDigit. destruct (hexValue c) eqn:E; [intros _|discriminate].
  apply hexValue_range in E.
  destruct (isWhiteSpace c) eqn:W; [|reflexivity].
  apply isWhiteSpace_range in W. lia.
Qed.

Lemma trimStart_fixed s :
  (forall c, hd_error s = Some c -> isWhiteSpace c = false) -> trimStart s = s.
Proof.
  destruct s as [|c s]; [reflexivity|]. intros H. cbn.
  now rewrite (H c eq_refl).
Qed.

(** Trimming leaves a string alone when neither end is white space. *)
Lemma trim_fixed s :
  (forall c, hd_error s = Some c -> isWhiteSpace c = false) ->
  (forall c, hd_error (rev s) = Some c -> isWhiteSpace c = false) ->
  trim s = s.
Proof.
  intros Hh Hl. unfold trim, trimEnd.
  rewrite (trimStart_fixed s Hh), (trimStart_fixed (rev s) Hl).
  apply rev_involutive.
Qed.

Lemma trim_0x_hex h :
  forallb isHexDigit h = true -> trim (lit "0x" ++ h) = lit "0x" ++ h.
Proof.
  intros Hh. apply trim_fixed.
  - intros c [= <-]. reflexivity.
  - intros c Hc. destruct (rev h) as [|d r] eqn:E.
    + apply (f_equal (@rev Z)) in E. rewrite rev_involutive in E. subst h.
      cbn in Hc. injection Hc as <-. reflexivity.
    + change (lit "0x" ++ h) with (48 :: 120 :: h) in Hc.
      cbn [rev] in Hc. rewrite E in Hc. cbn in Hc. injection Hc as <-.
      apply isHexDigit_not_space.
      rewrite forallb_forall in Hh. apply Hh. apply in_rev. rewrite E. now left.
Qed.

Lemma startsWith_app p s : startsWith (p ++ s) p = true.
Proof.
  induction p as [|c p IH]; [reflexivity|]. cbn. now rewrite Z.eqb_refl, IH.
Qed.

Lemma startsWith_inv s p : startsWith s p = true -> s = p ++ skipn (length p) s.
Proof.
  revert s. induction p as [|c p IH]; intros s H; [reflexivity|].
  destruct s as [|d s]; [discriminate|]. cbn in H.
  apply andb_true_iff in H as [Hc Hs]. apply Z.eqb_eq in Hc. subst d.
  cbn. f_equal. now apply IH.
Qed.

Lemma parseHexFrom_spec h acc :
  forallb isHexDigit h = true ->
  parseHexFrom acc h = Some (acc * 16 ^ Z.of_nat (length h) + hexNumber h).
Proof.
  revert acc. induction h as [|c h IH]; intros acc Hh.
  - cbn. f_equal. lia.
  - cbn [forallb] in Hh. apply andb_true_iff in Hh as [Hc Hh].
    cbn [parseHexFrom hexNumber]. unfold digitOf, isHexDigit in *.
    destruct (hexValue c) as [d|]; [|discriminate].
    rewrite IH by assumption. f_equal.
    change (length (c :: h)) with (S (length h)).
    rewrite Nat2Z.inj_succ, Z.pow_succ_r by lia. ring.
Qed.

Lemma hexNumber_zeros k h : hexNumber (repeat 48 k ++ h) = hexNumber h.
Proof.
  induction k as [|k IH]; [reflexivity|].
  cbn [repeat app hexNumber]. rewrite IH. reflexivity.
Qed.

Lemma forallb_hex_padStart h n :
  forallb isHexDigit h = true -> forallb isHexDigit (padStart h n 48) = true.
Proof.
  intros Hh. unfold padStart. rewrite forallb_app, Hh, andb_true_r.
  induction (n - length h)%nat; [reflexivity|assumption].
Qed.

Lemma length_padStart (h : jsstring) n c :
  (length h <= n)%nat -> length (padStart h n c) = n.
Proof.
  intros H. unfold padStart. rewrite length_app, repeat_length. lia.
Qed.

(** [BigInt] reads a zero-padded hexadecimal numeral as its value. *)
Lemma BigInt_padded h n :
  h <> [] -> forallb isHexDigit h = true ->
  BigInt (lit "0x" ++ padStart h n 48) = Some (hexNumber h).
Proof.
  intros Hne Hh.
  change (lit "0x" ++ padStart h n 48) with (48 :: 120 :: padStart h n 48).
  assert (Hp : padStart h n 48 <> []).
  { unfold padStart. destruct h; [contradiction|].
    intros E. apply app_eq_nil in E as [_ E]. discriminate. }
  unfold BigInt. destruct (padStart h n 48) as [|c p] eqn:E; [contradiction|].
  rewrite <- E, parseHexFrom_spec by now apply forallb_hex_padStart.
  unfold padStart. now rewrite hexNumber_zeros.
Qed.

Lemma BigInt_hex h :
  h <> [] -> forallb isHexDigit h = true ->
  BigInt (lit "0x" ++ h) = Some (hexNumber h).
Proof. intros Hne Hh. exact (BigInt_padded h 0 Hne Hh). Qed.

Lemma hexNumber_bound h :
  0 <= hexNumber h < 16 ^ Z.of_nat (length h).
Proof.
  induction h as [|c h IH]; [cbn; lia|].
  change (length (c :: h)) with (S (length h)).
  rewrite Nat2Z.inj_succ, Z.pow_succ_r by lia. cbn [hexNumber].
  assert (0 <= digitOf c < 16).
  { unfold digitOf. destruct (hexValue c) eqn:E; [|lia].
    now apply hexValue_range in E. }
  nia.
Qed.

(** The fuel of [toStringRadix] is enough: more of it changes nothing. *)
Lemma digitsFrom_fuel radix fuel : forall fuel' n,
  2 <= radix -> 0 <= n ->
  (Z.to_nat (Z.log2 n) < fuel)%nat -> (Z.to_nat (Z.log2 n) < fuel')%nat ->
  digitsFrom fuel radix n = digitsFrom fuel' radix n.
Proof.
  induction fuel as [|fuel IH]; intros fuel' n Hr Hn Hf Hf'; [lia|].
  destruct fuel' as [|fuel']; [lia|]. cbn [digitsFrom].
  destruct (Z.ltb_spec n radix) as [Hlt|Hge]; [reflexivity|].
  assert (Hq : 0 <= n / radix <= n / 2).
  { split; [apply Z.div_pos; lia|].
    apply Z.div_le_compat_l; lia. }
  assert (Hlog : Z.log2 (n / radix) < Z.log2 n).
  { apply Z.le_lt_trans with (Z.log2 (n / 2)).
    - apply Z.log2_le_mono. lia.
    - replace (n / 2) with (Z.shiftr n 1)
        by (rewrite Z.shiftr_div_pow2 by lia; reflexivity).
      rewrite Z.log2_shiftr by lia.
      assert (0 < Z.log2 n) by (apply Z.log2_pos; lia). lia. }
  pose proof (Z.log2_nonneg (n / radix)).
  f_equal. apply IH; lia.
Qed.

(* ===================================================================== *)
(** ** The legacy validator                                               *)
(* ===================================================================== *)

(** The legacy validator on [0x] followed by 1 to 64 hexadecimal digits:
    the only test left is the bound on the value. *)
Lemma validateLegacyAddress_hex h :
  (1 <= length h <= 64)%nat -> forallb isHexDigit h = true ->
  validateLegacyAddress (lit "0x" ++ h) =
    if FELT252_MAX <? hexNumber h then invalid legacy exceedsFeltMessage
    else legacyOk (lit "0x" ++ padStart h 64 48).
Proof.
  intros Hlen Hh. unfold validateLegacyAddress.
  rewrite trim_0x_hex by assumption.
  rewrite startsWith_app. cbn [negb].
  change (sliceFrom (lit "0x" ++ h) 2) with h.
  destruct h as [|c h]; [cbn in Hlen; lia|].
  replace (length (c :: h) =? 0)%nat with false by reflexivity.
  replace (test_hex (c :: h)) with true by (symmetry; exact Hh).
  cbn [negb].
  replace (64 <? length (c :: h))%nat with false
    by (symmetry; apply Nat.ltb_ge; lia).
  rewrite BigInt_padded by (assumption || discriminate).
  reflexivity.
Qed.

Lemma detect_0x h : forallb isHexDigit h = true ->
  detectAddressFormat (lit "0x" ++ h) = legacy.
Proof.
  intros Hh. unfold detectAddressFormat.
  now rewrite trim_0x_hex, startsWith_app.
Qed.

(* ===================================================================== *)
(** ** Bytes                                                              *)
(* ===================================================================== *)

Lemma byteVal_range b : 0 <= byteVal b <= 255.
Proof.
  unfold byteVal. pose proof (Byte.to_N_bounded b). lia.
Qed.

Lemma byteVal_toUint8 z : 0 <= z <= 255 -> byteVal (toUint8 z) = z.
Proof.
  intros Hz. unfold toUint8, byteVal.
  rewrite Z.mod_small by lia.
  destruct (Byte.of_N (Z.to_N z)) as [b|] eqn:E.
  - apply Byte.to_of_N in E. lia.
  - apply Byte.of_N_None_iff in E. lia.
Qed.

Lemma toUint8_byteVal b : toUint8 (byteVal b) = b.
Proof.
  unfold toUint8. pose proof (byteVal_range b) as Hb.
  rewrite Z.mod_small by lia. unfold byteVal.
  now rewrite N2Z.id, Byte.of_to_N.
Qed.

Lemma byteAt_app (pre : list byte) b tail :
  byteAt (pre ++ b :: tail) (length pre) = byteVal b.
Proof. unfold byteAt. now rewrite nth_middle. Qed.

Lemma byteAt_app_next (pre : list byte) a b tail :
  byteAt (pre ++ a :: b :: tail) (length pre + 1) = byteVal b.
Proof.
  unfold byteAt. replace (pre ++ a :: b :: tail) with ((pre ++ [a]) ++ b :: tail)
    by now rewrite <- app_assoc.
  replace (length pre + 1)%nat with (length (pre ++ [a]))
    by (rewrite length_app; reflexivity).
  now rewrite nth_middle.
Qed.

Lemma sliceBytes_app (pre v rest : list byte) :
  sliceBytes (pre ++ v ++ rest) (length pre) (length pre + length v) = v.
Proof.
  unfold sliceBytes.
  rewrite skipn_app, skipn_all, Nat.sub_diag. cbn [app skipn].
  replace (length pre + length v - length pre)%nat with (length v) by lia.
  rewrite firstn_app, firstn_all, Nat.sub_diag. cbn. apply app_nil_r.
Qed.

(* ===================================================================== *)
(** ** The TLV loop                                                       *)
(* ===================================================================== *)

(** The loop, one round at a time. *)
Lemma parseTLV_round data offset receivers :
  parseTLV data offset receivers =
    if (offset <? length data)%nat then
      match readRecord data offset with
      | inl result => inl result
      | inr (offset', receiver) =>
          parseTLV data offset' (receivers ++ [receiver])
      end
    else inr receivers.
Proof.
  rewrite parseTLV_equation_1.
  destruct (lt_dec offset (length data)) as [Hlt|Hge].
  - apply Nat.ltb_lt in Hlt as Hb. rewrite Hb.
    cbn [parseTLV_unfold_clause_1].
    unfold readRecord, isKnownType, describeType, knownLengthError, truncatedError.
    destruct (length data <? offset + 2)%nat; [reflexivity|].
    destruct (length data <? offset + 2 + Z.to_nat (byteAt data (offset + 1)))%nat;
      [reflexivity|].
    destruct (byteAt data offset =? TLV_TYPES.PUBLIC_KEY),
      (byteAt data offset =? TLV_TYPES.SHIELDED),
      (byteAt data (offset + 1) =? 32); reflexivity.
  - apply Nat.ltb_nlt in Hge as Hb. rewrite Hb. reflexivity.
Qed.

Lemma parseTLV_done data offset receivers :
  (length data <= offset)%nat -> parseTLV data offset receivers = inr receivers.
Proof.
  intros H. rewrite parseTLV_round.
  now replace (offset <? length data)%nat with false
    by (symmetry; apply Nat.ltb_ge; lia).
Qed.

(** A complete record on the wire, read at its first byte. *)
Lemma readRecord_tlv pre rec rest :
  (length (snd rec) <= 255)%nat ->
  readRecord (pre ++ tlv rec ++ rest) (length pre) =
    if isKnownType (byteVal (fst rec)) && negb (length (snd rec) =? 32)%nat then
      inl (invalid unified
             (knownLengthError (byteVal (fst rec)) (Z.of_nat (length (snd rec)))))
    else inr ((length pre + length (tlv rec))%nat, receiverOf rec).
Proof.
  destruct rec as [t v]. cbn [fst snd]. intros Hv.
  unfold readRecord, tlv. cbn [fst snd app].
  set (l := toUint8 (Z.of_nat (length v))).
  assert (Hl : byteVal l = Z.of_nat (length v))
    by (apply byteVal_toUint8; lia).
  rewrite byteAt_app, byteAt_app_next, Hl, Nat2Z.id.
  replace (length (pre ++ t :: l :: v ++ rest) <? length pre + 2)%nat with false
    by (symmetry; apply Nat.ltb_ge; rewrite length_app; cbn; lia).
  replace (length (pre ++ t :: l :: v ++ rest) <? length pre + 2 + length v)%nat
    with false
    by (symmetry; apply Nat.ltb_ge; rewrite length_app; cbn;
        rewrite length_app; lia).
  replace (Z.of_nat (length v) =? 32) with (length v =? 32)%nat.
  2:{ destruct (Nat.eqb_spec (length v) 32), (Z.eqb_spec (Z.of_nat (length v)) 32);
      try reflexivity; lia. }
  destruct (isKnownType (byteVal t) && negb (length v =? 32)%nat); [reflexivity|].
  unfold receiverOf. cbn [fst snd length]. do 2 f_equal; [lia|].
  f_equal.
  replace (pre ++ t :: l :: v ++ rest) with ((pre ++ [t; l]) ++ v ++ rest)
    by now rewrite <- app_assoc.
  replace (length pre + 2)%nat with (length (pre ++ [t; l]))
    by (rewrite length_app; reflexivity).
  apply sliceBytes_app.
Qed.

(** A record whose declared length exceeds what is left. *)
Lemma readRecord_truncated pre t l tail :
  (length tail < Z.to_nat (byteVal l))%nat ->
  readRecord (pre ++ t :: l :: tail) (length pre) =
    inl (invalid unified (truncatedError (byteVal l) (length tail))).
Proof.
  intros H. unfold readRecord.
  rewrite byteAt_app_next.
  replace (length (pre ++ t :: l :: tail) <? length pre + 2)%nat with false
    by (symmetry; apply Nat.ltb_ge; rewrite length_app; cbn; lia).
  replace (length (pre ++ t :: l :: tail)
             <? length pre + 2 + Z.to_nat (byteVal l))%nat with true
    by (symmetry; apply Nat.ltb_lt; rewrite length_app; cbn; lia).
  do 3 f_equal. rewrite length_app. cbn. lia.
Qed.

(** A lone byte where a record is expected. *)
Lemma readRecord_header pre t :
  readRecord (pre ++ [t]) (length pre) =
    inl (invalid unified (lit "Incomplete TLV record: missing type or length")).
Proof.
  unfold readRecord.
  now replace (length (pre ++ [t]) <? length pre + 2)%nat with true
    by (symmetry; apply Nat.ltb_lt; rewrite length_app; cbn; lia).
Qed.

Lemma length_tlv rec : length (tlv rec) = (2 + length (snd rec))%nat.
Proof. reflexivity. Qed.

(** The loop over a run of accepted records: each becomes a receiver, in
    order, and the loop goes on behind the run. *)
Lemma parseTLV_accepted recs : forall pre rest receivers,
  forallb accepted recs = true ->
  parseTLV (pre ++ tlvAll recs ++ rest) (length pre) receivers =
  parseTLV (pre ++ tlvAll recs ++ rest) (length pre + length (tlvAll recs))
    (receivers ++ map receiverOf recs).
Proof.
  induction recs as [|rec recs IH]; intros pre rest receivers Hacc.
  - cbn. now rewrite Nat.add_0_r, app_nil_r.
  - cbn [forallb] in Hacc. apply andb_true_iff in Hacc as [Hrec Hrecs].
    unfold accepted in Hrec. apply andb_true_iff in Hrec as [Hlen Hknown].
    apply Nat.leb_le in Hlen.
    unfold tlvAll. cbn [map concat]. fold (tlvAll recs).
    rewrite parseTLV_round.
    replace (length pre <? length (pre ++ (tlv rec ++ tlvAll recs) ++ rest))%nat
      with true
      by (symmetry; apply Nat.ltb_lt; rewrite !length_app, length_tlv; lia).
    rewrite <- (app_assoc (tlv rec)).
    rewrite readRecord_tlv by assumption.
    replace (isKnownType (byteVal (fst rec)) && negb (length (snd rec) =? 32)%nat)
      with false.
    2:{ symmetry. apply orb_true_iff in Hknown as [Hk|Hk].
        - apply negb_true_iff in Hk. now rewrite Hk.
        - rewrite Hk. apply andb_false_r. }
    specialize (IH (pre ++ tlv rec) rest (receivers ++ [receiverOf rec]) Hrecs).
    rewrite <- !app_assoc in IH. rewrite length_app in IH.
    rewrite IH. cbn [map]. rewrite length_app.
    f_equal. lia.
Qed.

(** A round that does not return moves the offset forward, stays inside
    the payload, and yields a receiver whose value has the declared
    length. *)
Lemma readRecord_next bytes offset offset' receiver :
  readRecord bytes offset = inr (offset', receiver) ->
  (offset + 2 <= offset' <= length bytes)%nat
  /\ type receiver = byteAt bytes offset
  /\ length (data receiver) = Z.to_nat (byteAt bytes (offset + 1))
  /\ description receiver = Some (describeType (type receiver)).
Proof.
  unfold readRecord.
  destruct (length bytes <? offset + 2)%nat; [discriminate|].
  destruct (length bytes <? offset + 2 + Z.to_nat (byteAt bytes (offset + 1)))%nat
    eqn:Hfit; [discriminate|].
  destruct (isKnownType (byteAt bytes offset)
            && negb (byteAt bytes (offset + 1) =? 32)); [discriminate|].
  intros [= <- <-]. apply Nat.ltb_ge in Hfit. cbn [type data description].
  repeat split; try lia.
  unfold sliceBytes. rewrite length_firstn, length_skipn. lia.
Qed.

(** Induction along the rounds of the loop. *)
Lemma parseTLV_rounds bytes
  (P : nat -> list Receiver -> ValidationResult + list Receiver -> Prop) :
  (forall offset receivers,
      (length bytes <= offset)%nat -> P offset receivers (inr receivers)) ->
  (forall offset receivers result,
      (offset < length bytes)%nat -> readRecord bytes offset = inl result ->
      P offset receivers (inl result)) ->
  (forall offset receivers offset' receiver,
      (offset < length bytes)%nat ->
      readRecord bytes offset = inr (offset', receiver) ->
      P offset' (receivers ++ [receiver])
        (parseTLV bytes offset' (receivers ++ [receiver])) ->
      P offset receivers (parseTLV bytes offset' (receivers ++ [receiver]))) ->
  forall offset receivers, P offset receivers (parseTLV bytes offset receivers).
Proof.
  intros Hdone Hret Hnext offset.
  remember (length bytes - offset)%nat as n eqn:Hn.
  revert offset Hn. induction n as [n IH] using lt_wf_ind.
  intros offset Hn receivers. rewrite parseTLV_round.
  destruct (offset <? length bytes)%nat eqn:Hlt.
  - apply Nat.ltb_lt in Hlt.
    destruct (readRecord bytes offset) as [result|[offset' receiver]] eqn:Hr.
    + now apply Hret.
    + apply Hnext with (offset := offset); try assumption.
      apply readRecord_next in Hr as [Hoff _].
      apply (IH (length bytes - offset')%nat); [lia|reflexivity].
  - apply Nat.ltb_ge in Hlt. now apply Hdone.
Qed.

Lemma readRecord_invalid bytes offset result :
  readRecord bytes offset = inl result -> exists e, result = invalid unified e.
Proof.
  unfold readRecord.
  repeat match goal with
         | |- context [if ?b then _ else _] => destruct b
         end; intros [= <-]; eauto.
Qed.

(** Every [return] inside the loop is a failure tagged [unified]. *)
Lemma parseTLV_invalid bytes offset receivers result :
  parseTLV bytes offset receivers = inl result ->
  exists e, result = invalid unified e.
Proof.
  revert result.
  apply (parseTLV_rounds bytes
           (fun _ _ out => forall result, out = inl result ->
                                   exists e, result = invalid unified e)).
  - discriminate.
  - intros off rs result _ Hr r [= <-]. now apply readRecord_invalid in Hr.
  - auto.
Qed.

(** The receivers the loop ends with are those it started with followed
    by values of at most 255 bytes. *)
Lemma parseTLV_value_bound bytes offset receivers out :
  Forall (fun r => (length (data r) <= 255)%nat) receivers ->
  parseTLV bytes offset receivers = inr out ->
  Forall (fun r => (length (data r) <= 255)%nat) out.
Proof.
  revert out.
  apply (parseTLV_rounds bytes
           (fun _ receivers res => forall out,
                Forall (fun r => (length (data r) <= 255)%nat) receivers ->
                res = inr out ->
                Forall (fun r => (length (data r) <= 255)%nat) out)).
  - now intros _ rs _ out H [= <-].
  - discriminate.
  - intros off rs off' rcv _ Hr IH out Hrs Hout.
    apply IH; [|assumption]. apply Forall_app. split; [assumption|].
    constructor; [|constructor].
    apply readRecord_next in Hr as (_ & _ & Hlen & _). rewrite Hlen.
    pose proof (byteVal_range (nth (off + 1) bytes x00)). unfold byteAt. lia.
Qed.

(* ===================================================================== *)
(** ** The unified validator                                              *)
(* ===================================================================== *)

Lemma tlvAll_app recs recs' : tlvAll (recs ++ recs') = tlvAll recs ++ tlvAll recs'.
Proof. unfold tlvAll. now rewrite map_app, concat_app. Qed.

(** Behind a run of accepted records the validator goes on with the
    loop at the end of the run, the run's receivers collected. *)
Lemma validateUnified_after hrp before rest :
  forallb accepted before = true ->
  validateUnifiedAddress hrp 1 (tlvAll before ++ rest) =
    afterLoop hrp (tlvAll before ++ rest)
      (parseTLV (tlvAll before ++ rest) (length (tlvAll before))
         (map receiverOf before)).
Proof.
  intros Hacc. unfold validateUnifiedAddress. cbn [Z.eqb Pos.eqb negb].
  pose proof (parseTLV_accepted before [] rest [] Hacc) as H.
  cbn [app length Nat.add] in H. rewrite H. reflexivity.
Qed.

(** Behind a run of accepted records, a round that returns decides the
    whole validation. *)
Lemma validateUnified_returns hrp before rest result :
  forallb accepted before = true -> rest <> [] ->
  readRecord (tlvAll before ++ rest) (length (tlvAll before)) = inl result ->
  validateUnifiedAddress hrp 1 (tlvAll before ++ rest) = result.
Proof.
  intros Hacc Hrest Hr. rewrite validateUnified_after by assumption.
  rewrite parseTLV_round, Hr.
  replace (length (tlvAll before) <? length (tlvAll before ++ rest))%nat
    with true; [reflexivity|].
  symmetry. apply Nat.ltb_lt. rewrite length_app.
  destruct rest; [contradiction|cbn; lia].
Qed.

(** A payload made of accepted records, at least one, validates, and the
    receivers are the records in payload order. *)
Lemma validateUnified_records hrp recs :
  forallb accepted recs = true -> recs <> [] ->
  validateUnifiedAddress hrp 1 (tlvAll recs) =
    valid unified
      {| hrp := Some hrp; version := Some 1; payload := Some (tlvAll recs);
         receivers := Some (map receiverOf recs); felt252 := None;
         checksum := None |}.
Proof.
  intros Hacc Hne.
  pose proof (validateUnified_after hrp recs [] Hacc) as H.
  rewrite app_nil_r in H. rewrite H, parseTLV_done by lia.
  destruct recs; [contradiction|reflexivity].
Qed.

(** A value of at most 255 bytes is the value of the record that
    declares its length. *)
Lemma declared_length l (tail : list byte) :
  (Z.to_nat (byteVal l) <= length tail)%nat ->
  l :: tail =
    toUint8 (Z.of_nat (length (firstn (Z.to_nat (byteVal l)) tail)))
      :: firstn (Z.to_nat (byteVal l)) tail ++ skipn (Z.to_nat (byteVal l)) tail
  /\ (length (firstn (Z.to_nat (byteVal l)) tail) <= 255)%nat
  /\ Z.of_nat (length (firstn (Z.to_nat (byteVal l)) tail)) = byteVal l.
Proof.
  intros H. pose proof (byteVal_range l) as Hl.
  rewrite firstn_skipn, length_firstn, Nat.min_l, Z2Nat.id by lia.
  rewrite toUint8_byteVal. repeat split; lia.
Qed.

(** *** Known and unknown receiver types *)

(** C5. In the unified payload, behind any run of accepted records:
    - a complete record of a known type (public key [0x00], shielded
      [0x01]) whose declared length is not 32 makes the validation fail
      with that type's length error, whatever follows;
    - a known type with a declared length other than 32 fails the
      validation in every case, with the truncation error when the
      declared bytes are not all there;
    - a complete record of any other type, of any length up to the 255 a
      length byte can hold, is accepted: followed by accepted records the
      address is valid and has, at the record's place, a receiver with the
      record's type and value labelled [Unknown receiver type N]. *)
Theorem unified_known_and_unknown_types hrp before t v :
  forallb accepted before = true ->
  (length v <= 255)%nat ->
  (isKnownType (byteVal t) = true -> length v <> 32%nat ->
   forall rest,
     validateUnifiedAddress hrp 1 (tlvAll before ++ tlv (t, v) ++ rest) =
       invalid unified
         (knownLengthError (byteVal t) (Z.of_nat (length v))))
  /\ (isKnownType (byteVal t) = true ->
      forall l tail, byteVal l <> 32 ->
        let result :=
          validateUnifiedAddress hrp 1 (tlvAll before ++ t :: l :: tail) in
        isValid result = false
        /\ (result = invalid unified (knownLengthError (byteVal t) (byteVal l))
            \/ result = invalid unified (truncatedError (byteVal l) (length tail))))
  /\ (isKnownType (byteVal t) = false ->
      forall after, forallb accepted after = true ->
        validateUnifiedAddress hrp 1
          (tlvAll before ++ tlv (t, v) ++ tlvAll after) =
          valid unified
            {| hrp := Some hrp; version := Some 1;
               payload := Some (tlvAll before ++ tlv (t, v) ++ tlvAll after);
               receivers :=
                 Some (map receiverOf before
                         ++ mkReceiver (byteVal t) v
                              (Some (lit "Unknown receiver type "
                                       ++ toString (byteVal t)))
                         :: map receiverOf after);
               felt252 := None; checksum := None |}).
Proof.
  intros Hbefore Hv.
  assert (Hcomplete : forall t' v', isKnownType (byteVal t') = true ->
            (length v' <= 255)%nat -> length v' <> 32%nat -> forall rest,
            validateUnifiedAddress hrp 1 (tlvAll before ++ tlv (t', v') ++ rest) =
              invalid unified
                (knownLengthError (byteVal t') (Z.of_nat (length v')))).
  { intros t' v' Hknown Hv' Hlen rest.
    apply validateUnified_returns; [assumption|discriminate|].
    rewrite readRecord_tlv by assumption. cbn [fst snd]. rewrite Hknown.
    now replace (length v' =? 32)%nat with false
      by (symmetry; now apply Nat.eqb_neq). }
  split; [|split].
  - intros Hknown Hlen rest. now apply Hcomplete.
  - intros Hknown l tail Hl result. subst result.
    destruct (Nat.lt_ge_cases (length tail) (Z.to_nat (byteVal l))) as [Hshort|Hfits].
    + rewrite (validateUnified_returns hrp before (t :: l :: tail)
                 (invalid unified (truncatedError (byteVal l) (length tail))));
        [split; [reflexivity|now right]|assumption|discriminate|].
      now apply readRecord_truncated.
    + destruct (declared_length l tail Hfits) as (Heq & Hle & Hdecl).
      rewrite Heq.
      change (t :: toUint8 ?n :: ?x ++ ?y) with (tlv (t, x) ++ y).
      rewrite Hcomplete; [|assumption|assumption|lia].
      cbn [snd]. rewrite Hdecl. split; [reflexivity|now left].
  - intros Hunknown after Hafter.
    assert (Hrec : accepted (t, v) = true).
    { unfold accepted. cbn [fst snd]. rewrite Hunknown.
      now apply andb_true_iff; split; [apply Nat.leb_le|]. }
    assert (Hall : forallb accepted (before ++ (t, v) :: after) = true).
    { rewrite forallb_app. cbn [forallb]. now rewrite Hbefore, Hrec, Hafter. }
    pose proof (validateUnified_records hrp (before ++ (t, v) :: after) Hall) as H.
    rewrite tlvAll_app in H.
    change (tlvAll ((t, v) :: after)) with (tlv (t, v) ++ tlvAll after) in H.
    rewrite H by (intros E; apply app_eq_nil in E as [_ E]; discriminate).
    rewrite map_app. cbn [map]. unfold receiverOf at 2, describeType.
    cbn [fst snd]. unfold isKnownType in Hunknown.
    apply orb_false_iff in Hunknown as [-> ->]. reflexivity.
Qed.

(** A record of type [0x05] with a three-byte value is accepted and
    labelled; the same value under the public-key type is refused. *)
Lemma unified_known_and_unknown_types_witness :
  receiversOf (validateUnifiedAddress (lit "strku") 1 [x05; x03; xaa; xbb; xcc]) =
    Some [mkReceiver 5 [xaa; xbb; xcc] (Some (lit "Unknown receiver type 5"))]
  /\ validateUnifiedAddress (lit "strku") 1 [x00; x03; xaa; xbb; xcc] =
       invalid unified (lit "Invalid public key length: 3 bytes (expected 32)").
Proof.
  destruct (unified_known_and_unknown_types (lit "strku") [] x05 [xaa; xbb; xcc]
              eq_refl ltac:(cbn; lia)) as (_ & _ & Hunknown).
  destruct (unified_known_and_unknown_types (lit "strku") [] x00 [xaa; xbb; xcc]
              eq_refl ltac:(cbn; lia)) as (Hknown & _ & _).
  split.
  - exact (f_equal receiversOf (Hunknown eq_refl [] eq_refl)).
  - exact (Hknown eq_refl ltac:(discriminate) []).
Defined.

(** *** Truncated records *)

(** C6. Behind any run of accepted records, a record whose length byte
    declares more bytes than remain after its two-byte header makes the
    validation fail with the error that names the declared and the
    remaining byte counts; no receiver is produced from the short value. *)
Theorem unified_truncated_record hrp before t l tail :
  forallb accepted before = true ->
  (length tail < Z.to_nat (byteVal l))%nat ->
  validateUnifiedAddress hrp 1 (tlvAll before ++ t :: l :: tail) =
    invalid unified
      (lit "Incomplete TLV record: expected " ++ toString (byteVal l)
         ++ lit " bytes but only " ++ toString (Z.of_nat (length tail))
         ++ lit " remaining").
Proof.
  intros Hbefore Hshort.
  apply validateUnified_returns; [assumption|discriminate|].
  now apply readRecord_truncated.
Qed.

(** A last record that declares 32 bytes and has 31. *)
Lemma unified_truncated_record_witness :
  validateUnifiedAddress (lit "strku") 1 (x00 :: x20 :: repeat x07 31) =
    invalid unified
      (lit "Incomplete TLV record: expected 32 bytes but only 31 remaining").
Proof.
  apply (unified_truncated_record (lit "strku") [] x00 x20 (repeat x07 31) eq_refl).
  cbn. lia.
Defined.

(* ===================================================================== *)
(** ** The dispatch                                                       *)
(* ===================================================================== *)

Lemma streq_eq s t : streq s t = true <-> s = t.
Proof.
  unfold streq. destruct (list_eq_dec Z.eq_dec s t); split; intros H;
    (assumption || discriminate || contradiction || reflexivity).
Qed.

Lemma detect_nonempty input : detectAddressFormat input <> unknown -> input <> [].
Proof. intros H ->. now apply H. Qed.

(** On a non-empty string the entry point is the [switch] on the
    detected format. *)
Lemma validateStarknetAddress_switch bech32 input :
  input <> [] ->
  validateStarknetAddress bech32 input =
    match detectAddressFormat input with
    | legacy => validateLegacyAddress input
    | unknown => invalid unknown unknownFormatMessage
    | f => validateBech32Address bech32 input f
    end.
Proof.
  intros H. destruct input; [contradiction|].
  unfold validateStarknetAddress.
  now destruct (detectAddressFormat _).
Qed.

(** The Bech32 validator once the text has decoded to the expected
    prefix and to a payload of at least one byte. *)
Lemma validateBech32Address_decoded bech32 input f prefix words numbers v rest :
  decode bech32 (trim input) = inr (prefix, words) ->
  prefix = hrpOf f ->
  fromWords bech32 words = inr numbers ->
  map toUint8 numbers = v :: rest ->
  validateBech32Address bech32 input f =
    match f with
    | unified => validateUnifiedAddress prefix (byteVal v) rest
    | _ => validateSimpleAddress f prefix (byteVal v) rest
    end.
Proof.
  intros Hd Hp Hw Hn. unfold validateBech32Address.
  rewrite Hd. cbv beta iota zeta.
  match goal with
  | |- context [streq prefix ?x] =>
      replace (streq prefix x) with true by (symmetry; apply streq_eq; exact Hp)
  end.
  cbn [negb]. rewrite Hw, Hn. reflexivity.
Qed.

(** The entry point on a string detected as unified that decodes to the
    prefix [strku] and to a version byte followed by the record area: it is
    the unified validator on that byte and that area. *)
Lemma validateStarknetAddress_unified bech32 input words numbers v rest :
  detectAddressFormat input = unified ->
  decode bech32 (trim input) = inr (STARKNET_HRPS.unified, words) ->
  fromWords bech32 words = inr numbers ->
  map toUint8 numbers = v :: rest ->
  validateStarknetAddress bech32 input =
    validateUnifiedAddress STARKNET_HRPS.unified (byteVal v) rest.
Proof.
  intros Hf Hd Hw Hn.
  rewrite validateStarknetAddress_switch
    by (apply detect_nonempty; rewrite Hf; discriminate).
  rewrite Hf.
  exact (validateBech32Address_decoded bech32 input unified
           STARKNET_HRPS.unified words numbers v rest Hd eq_refl Hw Hn).
Qed.

Lemma format_validateLegacyAddress input :
  format (validateLegacyAddress input) = legacy.
Proof.
  unfold validateLegacyAddress.
  repeat match goal with
         | |- context [if ?b then _ else _] => destruct b
         | |- context [match BigInt ?s with _ => _ end] => destruct (BigInt s)
         end; reflexivity.
Qed.

Lemma format_validateSimpleAddress f hrp v bytes :
  format (validateSimpleAddress f hrp v bytes) = f.
Proof.
  unfold validateSimpleAddress.
  repeat match goal with
         | |- context [if ?b then _ else _] => destruct b
         | |- context [match BigInt ?s with _ => _ end] => destruct (BigInt s)
         end; reflexivity.
Qed.

Lemma format_validateUnifiedAddress hrp v bytes :
  format (validateUnifiedAddress hrp v bytes) = unified.
Proof.
  unfold validateUnifiedAddress.
  destruct (negb (v =? 1)); [reflexivity|].
  destruct (parseTLV bytes 0 []) as [result|receivers] eqn:E.
  - apply parseTLV_invalid in E as [e ->]. reflexivity.
  - now destruct (length receivers =? 0)%nat.
Qed.

Lemma format_validateBech32Address bech32 input f :
  format (validateBech32Address bech32 input f) = f.
Proof.
  unfold validateBech32Address.
  destruct (decode bech32 (trim input)) as [e|[prefix words]]; [reflexivity|].
  cbv zeta. destruct (negb (streq prefix _)); [reflexivity|].
  destruct (fromWords bech32 words) as [e|numbers]; [reflexivity|].
  destruct (length (map toUint8 numbers) =? 0)%nat; [reflexivity|].
  destruct f; try apply format_validateSimpleAddress.
  apply format_validateUnifiedAddress.
Qed.

(** C8. For every string, the [format] of the result is the tag the
    detector gives the string, whether the validation succeeds or not;
    and when the Bech32 decoder throws on a string detected as public,
    shielded or unified, the result is the decode error under that same
    tag, not [unknown]. *)
Theorem format_is_the_detected_one bech32 input :
  format (validateStarknetAddress bech32 input) = detectAddressFormat input
  /\ (forall e,
        detectAddressFormat input <> legacy ->
        detectAddressFormat input <> unknown ->
        decode bech32 (trim input) = inl e ->
        validateStarknetAddress bech32 input =
          invalid (detectAddressFormat input)
            (lit "Bech32 decode error: " ++ messageOf e)).
Proof.
  split.
  - destruct input as [|c input]; [reflexivity|].
    rewrite validateStarknetAddress_switch by discriminate.
    destruct (detectAddressFormat (c :: input));
      (apply format_validateLegacyAddress
       || apply format_validateBech32Address || reflexivity).
  - intros e Hl Hu Hd.
    rewrite validateStarknetAddress_switch by now apply detect_nonempty.
    destruct (detectAddressFormat input); try contradiction;
      unfold validateBech32Address; rewrite Hd; reflexivity.
Qed.

(** The literal that the documentation shows as a public address has a
    wrong checksum: it is reported under the tag [public]. *)
Lemma format_is_the_detected_one_witness :
  validateStarknetAddress Bech32.library
    (lit "strk1qqqqqqqqqqqqqqqqqqqqqqqqqqqqqqqqqqqqqqqqqqqqqqqqqqqqqqqqqqqqqqqfc6h6a") =
  invalid public
    (lit "Bech32 decode error: Invalid checksum for strk1qqqqqqqqqqqqqqqqqqqqqqqqqqqqqqqqqqqqqqqqqqqqqqqqqqqqqqqqqqqqqqqfc6h6a").
Proof.
  refine (proj2 (format_is_the_detected_one Bech32.library _)
            (ErrorObject _) _ _ _);
    [discriminate|discriminate|vm_compute; reflexivity].
Defined.

(** *** Unknown formats *)

Lemma detect_unknown input :
  noKnownPrefix (trim input) = true <-> detectAddressFormat input = unknown.
Proof.
  unfold noKnownPrefix, detectAddressFormat.
  destruct (startsWith (trim input) (lit "0x")),
    (startsWith (trim input) (lit "strk1")),
    (startsWith (trim input) (lit "strkx1")),
    (startsWith (trim input) (lit "strku1")); cbn; split;
    (reflexivity || discriminate).
Qed.

(** C9, as amended. For every non-empty string whose trimmed form starts
    with none of [0x], [strk1], [strkx1], [strku1], the detector returns
    [unknown] and the validation fails with the fixed message that lists
    the supported prefixes. *)
Theorem unknown_format_rejected bech32 input :
  input <> [] ->
  noKnownPrefix (trim input) = true ->
  detectAddressFormat input = unknown
  /\ validateStarknetAddress bech32 input =
       invalid unknown
         (lit "Unknown address format. Supported formats: 0x... (legacy), strk1... (public), strkx1... (shielded), strku1... (unified)").
Proof.
  intros Hne Hp. apply detect_unknown in Hp. split; [assumption|].
  rewrite validateStarknetAddress_switch by assumption. now rewrite Hp.
Qed.

Lemma unknown_format_rejected_witness :
  detectAddressFormat (lit "invalid-address") = unknown
  /\ validateStarknetAddress Bech32.library (lit "invalid-address") =
       invalid unknown unknownFormatMessage.
Proof.
  apply (unknown_format_rejected Bech32.library (lit "invalid-address"));
    [discriminate|reflexivity].
Defined.

(** C9 as stated fails twice: the empty string starts with none of the
    prefixes and is rejected with the empty-input message, not the
    unknown-format one; and a string with leading white space does not
    itself start with [0x], yet is detected (and validated) as legacy. *)
Lemma unknown_format_counterexample :
  (noKnownPrefix [] = true
   /\ validateStarknetAddress Bech32.library [] =
        invalid unknown (lit "Input must be a non-empty string")
   /\ validateStarknetAddress Bech32.library [] <>
        invalid unknown unknownFormatMessage)
  /\ (noKnownPrefix (lit " 0x0") = true
      /\ detectAddressFormat (lit " 0x0") = legacy
      /\ isValid (validateStarknetAddress Bech32.library (lit " 0x0")) = true).
Proof.
  split; [|evaluate].
  split; [evaluate|]. split; [evaluate|]. vm_compute. discriminate.
Qed.

(* ===================================================================== *)
(** ** Unified addresses through the entry point                          *)
(* ===================================================================== *)

(** C7. A unified payload that holds the version byte 1 and no TLV record
    is invalid with the error [Unified address must contain at least one
    receiver]: the loop runs zero rounds and reports nothing, the check
    behind it fails. This holds of the unified validator on the empty
    record area, and of the entry point on every string detected as
    unified that decodes to the prefix [strku] and the one-byte payload
    [[1]]. *)
Theorem unified_without_receivers :
  (forall hrp,
      parseTLV [] 0 [] = inr []
      /\ validateUnifiedAddress hrp 1 [] =
           invalid unified
             (lit "Unified address must contain at least one receiver"))
  /\ (forall bech32 input words numbers,
        detectAddressFormat input = unified ->
        decode bech32 (trim input) = inr (STARKNET_HRPS.unified, words) ->
        fromWords bech32 words = inr numbers ->
        map toUint8 numbers = [x01] ->
        validateStarknetAddress bech32 input =
          invalid unified
            (lit "Unified address must contain at least one receiver")).
Proof.
  split.
  - intros hrp. split; [now apply parseTLV_done|].
    unfold validateUnifiedAddress. cbn [Z.eqb Pos.eqb negb].
    now rewrite parseTLV_done.
  - intros bech32 input words numbers Hf Hd Hw Hn.
    rewrite (validateStarknetAddress_unified bech32 input words numbers x01 []
               Hf Hd Hw Hn).
    unfold validateUnifiedAddress.
    change (byteVal x01) with 1. cbn [Z.eqb Pos.eqb negb].
    now rewrite parseTLV_done.
Qed.

(** The Bech32 text of prefix [strku] and payload [[1]]. *)
Lemma unified_without_receivers_witness :
  validateStarknetAddress Bech32.library (lit "strku1qypafkpy") =
    invalid unified (lit "Unified address must contain at least one receiver").
Proof.
  refine (proj2 unified_without_receivers Bech32.library (lit "strku1qypafkpy")
            [0; 4] [1] _ _ _ _); vm_compute; reflexivity.
Defined.

(** C10. Whenever the validation of an input succeeds and returns
    receivers, which only a unified address does, the value of each
    receiver has at most 255 bytes, whatever its type: its length was read
    from one byte. *)
Theorem receiver_value_at_most_255 bech32 input receivers receiver :
  isValid (validateStarknetAddress bech32 input) = true ->
  receiversOf (validateStarknetAddress bech32 input) = Some receivers ->
  In receiver receivers ->
  (length (data receiver) <= 255)%nat.
Proof.
  intros Hvalid Hrs Hin.
  assert (Hunified : forall hrp v bytes,
             receiversOf (validateUnifiedAddress hrp v bytes) = Some receivers ->
             Forall (fun r => (length (data r) <= 255)%nat) receivers).
  { intros hrp v bytes. unfold validateUnifiedAddress.
    destruct (negb (v =? 1)); [discriminate|].
    destruct (parseTLV bytes 0 []) as [result|out] eqn:E.
    - apply parseTLV_invalid in E as [e ->]. discriminate.
    - destruct (length out =? 0)%nat; [discriminate|].
      intros [= <-]. now apply (parseTLV_value_bound bytes 0 [] out). }
  assert (Hsimple : forall f hrp v bytes,
             receiversOf (validateSimpleAddress f hrp v bytes) = Some receivers ->
             False).
  { intros f hrp v bytes. unfold validateSimpleAddress.
    repeat match goal with
           | |- context [if ?b then _ else _] => destruct b
           | |- context [match BigInt ?s with _ => _ end] => destruct (BigInt s)
           end; discriminate. }
  destruct input as [|c input]; [discriminate|].
  rewrite validateStarknetAddress_switch in Hrs by discriminate.
  assert (Hbech : forall f,
             receiversOf (validateBech32Address bech32 (c :: input) f)
               = Some receivers ->
             Forall (fun r => (length (data r) <= 255)%nat) receivers).
  { intros f. unfold validateBech32Address.
    destruct (decode bech32 _) as [e|[prefix words]]; [discriminate|].
    cbv zeta. destruct (negb (streq prefix _)); [discriminate|].
    destruct (fromWords bech32 words) as [e|numbers]; [discriminate|].
    destruct (length (map toUint8 numbers) =? 0)%nat; [discriminate|].
    destruct f; try (intros H; now apply Hsimple in H). apply Hunified. }
  assert (Hall : Forall (fun r => (length (data r) <= 255)%nat) receivers).
  { destruct (detectAddressFormat (c :: input));
      try (eapply Hbech; exact Hrs).
    - revert Hrs. unfold validateLegacyAddress.
      repeat match goal with
             | |- context [if ?b then _ else _] => destruct b
             | |- context [match BigInt ?s with _ => _ end] => destruct (BigInt s)
             end; intros H; discriminate H.
    - discriminate Hrs. }
  rewrite Forall_forall in Hall. now apply Hall.
Qed.

(** A unified address with one receiver, of type 5 and two bytes. *)
Lemma receiver_value_at_most_255_witness :
  (length [xaa; xbb] <= 255)%nat.
Proof.
  refine (receiver_value_at_most_255 Bech32.library
            (lit "strku1qyzs924mf2rpyv")
            [mkReceiver 5 [xaa; xbb] (Some (lit "Unknown receiver type 5"))]
            (mkReceiver 5 [xaa; xbb] (Some (lit "Unknown receiver type 5")))
            _ _ _).
  - vm_compute. reflexivity.
  - vm_compute. reflexivity.
  - now left.
Defined.

(* ===================================================================== *)
(** ** Bytes as hexadecimal text                                          *)
(* ===================================================================== *)

Lemma hexValue_digitChar d : 0 <= d < 16 ->
  hexValue (digitChar d) = Some d /\ isLowerHexDigit (digitChar d) = true.
Proof.
  intros Hd. replace d with (Z.of_nat (Z.to_nat d)) by lia.
  assert (Hn : (Z.to_nat d < 16)%nat) by lia. revert Hn.
  generalize (Z.to_nat d). intros n Hn.
  do 16 (destruct n as [|n]; [split; reflexivity|]). lia.
Qed.

(** The two digits that [b.toString(16).padStart(2, "0")] gives a byte. *)
Lemma byte_hex b :
  padStart (toStringRadix 16 (byteVal b)) 2 48 =
    [digitChar (byteVal b / 16); digitChar (byteVal b mod 16)].
Proof. destruct b; reflexivity. Qed.

Lemma bytesToHex_cons b bytes :
  bytesToHex (b :: bytes) =
    digitChar (byteVal b / 16) :: digitChar (byteVal b mod 16) :: bytesToHex bytes.
Proof. unfold bytesToHex. cbn [map concat]. now rewrite byte_hex. Qed.

Lemma length_bytesToHex bytes : length (bytesToHex bytes) = (2 * length bytes)%nat.
Proof.
  induction bytes as [|b bytes IH]; [reflexivity|].
  rewrite bytesToHex_cons. cbn [length]. lia.
Qed.

(** The hexadecimal text of a byte sequence is made of lower-case digits
    and denotes the big-endian value of the bytes. *)
Lemma bytesToHex_spec bytes :
  forallb isLowerHexDigit (bytesToHex bytes) = true
  /\ forallb isHexDigit (bytesToHex bytes) = true
  /\ hexNumber (bytesToHex bytes) = bigEndian bytes.
Proof.
  induction bytes as [|b bytes (IHl & IHh & IHn)]; [now cbn|].
  rewrite bytesToHex_cons. pose proof (byteVal_range b) as Hb.
  assert (Hhi : 0 <= byteVal b / 16 < 16)
    by (split; [apply Z.div_pos|apply Z.div_lt_upper_bound]; lia).
  assert (Hlo : 0 <= byteVal b mod 16 < 16) by (apply Z.mod_pos_bound; lia).
  destruct (hexValue_digitChar _ Hhi) as [Vhi Lhi].
  destruct (hexValue_digitChar _ Hlo) as [Vlo Llo].
  assert (Hhex : forall d, 0 <= d < 16 -> isHexDigit (digitChar d) = true).
  { intros d Hd. unfold isHexDigit.
    now rewrite (proj1 (hexValue_digitChar d Hd)). }
  cbn [forallb hexNumber]. rewrite Lhi, Llo, IHl, !Hhex, IHh, IHn by assumption.
  repeat split. unfold digitOf. rewrite Vhi, Vlo.
  cbn [length bigEndian]. rewrite length_bytesToHex.
  replace (Z.of_nat (S (2 * length bytes))) with (1 + 2 * Z.of_nat (length bytes))
    by lia.
  replace (Z.of_nat (2 * length bytes)) with (2 * Z.of_nat (length bytes)) by lia.
  rewrite Z.pow_add_r, !Z.pow_mul_r by lia.
  change (16 ^ 1) with 16. change (16 ^ 2) with 256.
  rewrite (Z.div_mod (byteVal b) 16) at 3 by lia. ring.
Qed.

Lemma BigInt_bytesToHex bytes :
  bytes <> [] -> BigInt (lit "0x" ++ bytesToHex bytes) = Some (bigEndian bytes).
Proof.
  intros Hne. destruct (bytesToHex_spec bytes) as (_ & Hh & Hn).
  rewrite <- Hn. apply BigInt_hex; [|assumption].
  destruct bytes; [contradiction|]. rewrite bytesToHex_cons. discriminate.
Qed.

(* ===================================================================== *)
(** ** The flat validator                                                 *)
(* ===================================================================== *)

(** The flat validator as a cascade of tests on the version, the length
    and the value of the data. *)
Lemma validateSimpleAddress_cascade fmt hrp v bytes :
  validateSimpleAddress fmt hrp v bytes =
    if negb (v =? 1) then
      invalid fmt
        (lit "Unsupported version: " ++ toString v ++ lit " (expected 1)")
    else if negb (length bytes =? 32)%nat then
      invalid fmt
        (lit "Invalid data length: " ++ toString (Z.of_nat (length bytes))
           ++ lit " bytes (expected 32)")
    else if FELT252_MAX <? bigEndian bytes then
      invalid fmt exceedsFeltMessage
    else
      valid fmt
        {| hrp := Some hrp; version := Some v; payload := Some bytes;
           receivers := None; felt252 := Some (lit "0x" ++ bytesToHex bytes);
           checksum := None |}.
Proof.
  unfold validateSimpleAddress.
  destruct (negb (v =? 1)); [reflexivity|].
  destruct (length bytes =? 32)%nat eqn:Hlen; [|reflexivity]. cbn [negb].
  rewrite BigInt_bytesToHex; [reflexivity|].
  intros ->. discriminate.
Qed.

(** C4. The flat validator applies its rules in this order: a version
    other than 1 is refused with the unsupported-version error, whatever
    the data; then data that is not exactly 32 bytes long is refused with
    the invalid-data-length error; then data whose big-endian value exceeds
    [FELT252_MAX] is refused; everything else succeeds and returns the
    prefix, the version, the data as payload, and as [felt252] the
    [0x]-prefixed big-endian hexadecimal text of the data, which is lower
    case, two digits a byte, and denotes the value of the data. *)
Theorem simple_address_rules fmt hrp v bytes :
  validateSimpleAddress fmt hrp v bytes =
    (if negb (v =? 1) then
       invalid fmt
         (lit "Unsupported version: " ++ toString v ++ lit " (expected 1)")
     else if negb (length bytes =? 32)%nat then
       invalid fmt
         (lit "Invalid data length: " ++ toString (Z.of_nat (length bytes))
            ++ lit " bytes (expected 32)")
     else if FELT252_MAX <? bigEndian bytes then
       invalid fmt (lit "Address exceeds felt252 maximum value (2^251 - 1)")
     else
       valid fmt
         {| hrp := Some hrp; version := Some v; payload := Some bytes;
            receivers := None; felt252 := Some (lit "0x" ++ bytesToHex bytes);
            checksum := None |})
  /\ length (bytesToHex bytes) = (2 * length bytes)%nat
  /\ forallb isLowerHexDigit (bytesToHex bytes) = true
  /\ hexNumber (bytesToHex bytes) = bigEndian bytes.
Proof.
  destruct (bytesToHex_spec bytes) as (Hl & _ & Hn).
  repeat split; try assumption; [|apply length_bytesToHex].
  apply validateSimpleAddress_cascade.
Qed.

(* ===================================================================== *)
(** ** The legacy validator through the entry point                       *)
(* ===================================================================== *)

Lemma validateStarknetAddress_0x bech32 h :
  forallb isHexDigit h = true ->
  validateStarknetAddress bech32 (lit "0x" ++ h) =
    validateLegacyAddress (lit "0x" ++ h).
Proof.
  intros Hh. rewrite validateStarknetAddress_switch by discriminate.
  now rewrite detect_0x.
Qed.

(** C2. For [0x] followed by 1 to 64 hexadecimal digits, the validation
    depends on the value [n] of the digits alone: it fails with the
    felt252 error, and returns no parsed data, when [n > FELT252_MAX], and
    succeeds otherwise with the digits themselves, zero-padded, as
    [felt252], whose value is again [n]: nothing is clamped or wrapped. In
    particular [n = FELT252_MAX = 2^251 - 1] passes, [n = FELT252_MAX + 1]
    fails, and 64 digits [f], of value [2^256 - 1], fail. *)
Theorem legacy_felt252_bound bech32 h :
  (1 <= length h <= 64)%nat ->
  forallb isHexDigit h = true ->
  let result := validateStarknetAddress bech32 (lit "0x" ++ h) in
  result =
    (if FELT252_MAX <? hexNumber h then
       invalid legacy (lit "Address exceeds felt252 maximum value (2^251 - 1)")
     else legacyOk (lit "0x" ++ padStart h 64 48))
  /\ hexNumber (padStart h 64 48) = hexNumber h
  /\ (hexNumber h = FELT252_MAX -> isValid result = true)
  /\ (hexNumber h = FELT252_MAX + 1 ->
      result =
        invalid legacy (lit "Address exceeds felt252 maximum value (2^251 - 1)"))
  /\ (h = repeat 102 64 ->
      hexNumber h = 2 ^ 256 - 1
      /\ result =
           invalid legacy (lit "Address exceeds felt252 maximum value (2^251 - 1)")).
Proof.
  intros Hlen Hh result.
  assert (Hr : result =
                 if FELT252_MAX <? hexNumber h
                 then invalid legacy exceedsFeltMessage
                 else legacyOk (lit "0x" ++ padStart h 64 48)).
  { subst result. rewrite validateStarknetAddress_0x by assumption.
    now apply validateLegacyAddress_hex. }
  split; [exact Hr|]. split; [apply hexNumber_zeros|].
  split; [|split].
  - intros Hn. rewrite Hr, Hn. reflexivity.
  - intros Hn. rewrite Hr, Hn. reflexivity.
  - intros ->. split; [reflexivity|]. rewrite Hr. reflexivity.
Qed.

(** The digits [7ff...f] (63 digits) denote [FELT252_MAX] and pass; the
    digits [800...0] denote [FELT252_MAX + 1] and fail. *)
Lemma legacy_felt252_bound_witness :
  isValid (validateStarknetAddress Bech32.library
             (lit "0x" ++ 55 :: repeat 102 62)) = true
  /\ validateStarknetAddress Bech32.library (lit "0x" ++ 56 :: repeat 48 62) =
       invalid legacy (lit "Address exceeds felt252 maximum value (2^251 - 1)").
Proof.
  split.
  - refine (proj1 (proj2 (proj2 (legacy_felt252_bound Bech32.library
                                   (55 :: repeat 102 62) _ _))) _);
      [cbn; lia|reflexivity|reflexivity].
  - refine (proj1 (proj2 (proj2 (proj2 (legacy_felt252_bound Bech32.library
                                   (56 :: repeat 48 62) _ _)))) _);
      [cbn; lia|reflexivity|reflexivity].
Defined.

(** *** The case of the digits *)

Lemma lower_or_upper c :
  isHexDigit c = true -> isLowerHexDigit c = negb (isUpperHexLetter c).
Proof.
  unfold isHexDigit, hexValue, isLowerHexDigit, isUpperHexLetter.
  destruct (Z.leb_spec 48 c), (Z.leb_spec c 57), (Z.leb_spec 97 c),
    (Z.leb_spec c 102), (Z.leb_spec 65 c), (Z.leb_spec c 70);
    cbn; try reflexivity; try discriminate; lia.
Qed.

Lemma lower_iff_no_upper h :
  forallb isHexDigit h = true ->
  forallb isLowerHexDigit h = negb (existsb isUpperHexLetter h).
Proof.
  induction h as [|c h IH]; [reflexivity|]. cbn [forallb existsb].
  intros [Hc Hh]%andb_true_iff.
  rewrite (lower_or_upper c Hc), (IH Hh). now destruct (isUpperHexLetter c).
Qed.

Lemma forallb_lower_zeros k h :
  forallb isLowerHexDigit (repeat 48 k ++ h) = forallb isLowerHexDigit h.
Proof. induction k as [|k IH]; [reflexivity|exact IH]. Qed.

(** C3, as amended. For every legacy input that validates successfully,
    [parsed.felt252] is [0x] followed by the hexadecimal digits of the
    trimmed input, left-padded with zeros to exactly 64 digits; the digits
    are the input's own, in the case the input has them, and denote the
    same value. The text is all lower case exactly when the input has no
    upper-case hexadecimal letter. *)
Theorem legacy_felt252_padded bech32 input :
  detectAddressFormat input = legacy ->
  isValid (validateStarknetAddress bech32 input) = true ->
  exists h,
    trim input = lit "0x" ++ h
    /\ (1 <= length h <= 64)%nat
    /\ forallb isHexDigit h = true
    /\ feltOf (validateStarknetAddress bech32 input) =
         Some (lit "0x" ++ repeat 48 (64 - length h) ++ h)
    /\ length (repeat 48 (64 - length h) ++ h) = 64%nat
    /\ hexNumber (repeat 48 (64 - length h) ++ h) = hexNumber h
    /\ isLowerFelt (lit "0x" ++ repeat 48 (64 - length h) ++ h) =
         negb (existsb isUpperHexLetter h).
Proof.
  intros Hf.
  rewrite validateStarknetAddress_switch
    by (apply detect_nonempty; rewrite Hf; discriminate).
  rewrite Hf. unfold validateLegacyAddress.
  destruct (startsWith (trim input) (lit "0x")) eqn:Hp; [|discriminate].
  apply startsWith_inv in Hp. change (length (lit "0x")) with 2%nat in Hp.
  unfold sliceFrom. set (h := skipn 2 (trim input)) in *. cbn [negb].
  destruct (length h =? 0)%nat eqn:H0; [discriminate|].
  destruct (test_hex h) eqn:Hhex; [|discriminate]. cbn [negb].
  destruct (64 <? length h)%nat eqn:H64; [discriminate|].
  apply Nat.eqb_neq in H0. apply Nat.ltb_ge in H64.
  assert (Hh : forallb isHexDigit h = true)
    by (destruct h; [discriminate|exact Hhex]).
  rewrite BigInt_padded by (assumption || now destruct h).
  destruct (FELT252_MAX <? hexNumber h); [discriminate|]. intros _.
  exists h. repeat split; try assumption; try lia.
  - rewrite length_app, repeat_length. lia.
  - apply hexNumber_zeros.
  - unfold isLowerFelt. rewrite startsWith_app.
    change (sliceFrom (lit "0x" ++ ?x) 2) with x.
    rewrite length_app, repeat_length.
    replace (64 - length h + length h =? 64)%nat with true
      by (symmetry; apply Nat.eqb_eq; lia).
    cbn [andb]. rewrite forallb_lower_zeros. now apply lower_iff_no_upper.
Qed.

Lemma legacy_felt252_padded_witness :
  exists h,
    trim (lit " 0xAbc ") = lit "0x" ++ h
    /\ feltOf (validateStarknetAddress Bech32.library (lit " 0xAbc ")) =
         Some (lit "0x" ++ repeat 48 (64 - length h) ++ h)
    /\ isLowerFelt (lit "0x" ++ repeat 48 (64 - length h) ++ h) =
         negb (existsb isUpperHexLetter h).
Proof.
  destruct (legacy_felt252_padded Bech32.library (lit " 0xAbc ") eq_refl eq_refl)
    as (h & Ht & _ & _ & Hfelt & _ & _ & Hlow).
  exists h. repeat split; assumption.
Defined.

(** C3 as stated fails: [0xABC] validates, and its [felt252] keeps the
    upper-case digits of the input. *)
Lemma legacy_felt252_lowercase_counterexample :
  isValid (validateStarknetAddress Bech32.library (lit "0xABC")) = true
  /\ feltOf (validateStarknetAddress Bech32.library (lit "0xABC")) =
       Some (lit "0x0000000000000000000000000000000000000000000000000000000000000ABC")
  /\ isLowerFelt
       (lit "0x0000000000000000000000000000000000000000000000000000000000000ABC")
     = false.
Proof. evaluate. Qed.

(* ===================================================================== *)
(** ** The test-vector generator                                          *)
(* ===================================================================== *)

Lemma bigEndian_bound bytes :
  0 <= bigEndian bytes < 256 ^ Z.of_nat (length bytes).
Proof.
  induction bytes as [|b bytes IH]; [cbn; lia|].
  change (length (b :: bytes)) with (S (length bytes)).
  rewrite Nat2Z.inj_succ, Z.pow_succ_r by lia. cbn [bigEndian].
  pose proof (byteVal_range b). nia.
Qed.

Lemma map_toUint8_byteVal bytes : map toUint8 (map byteVal bytes) = bytes.
Proof.
  induction bytes as [|b bytes IH]; [reflexivity|].
  cbn [map]. now rewrite toUint8_byteVal, IH.
Qed.

(** The mask [0x0f] leaves the first byte anywhere from 0 to 15. *)
Lemma masked_byte b : 0 <= band (byteVal b) 15 <= 15.
Proof. destruct b; vm_compute; split; discriminate. Qed.

(** The 32 random bytes, the first one masked. *)
Lemma randomMasked_shape random :
  exists b rest,
    randomMasked random = toUint8 (band (byteVal b) 15) :: rest
    /\ b = toUint8 (randomByte (random 0%nat))
    /\ length rest = 31%nat.
Proof.
  unfold randomMasked, draws. cbn [seq map].
  eexists _, _. split; [reflexivity|]. split; reflexivity.
Qed.

(** A 32-byte value exceeds [FELT252_MAX] exactly when its first byte is
    8 or more. *)
Lemma felt_bound_first_byte b rest :
  length rest = 31%nat ->
  (FELT252_MAX <? bigEndian (b :: rest)) = (8 <=? byteVal b).
Proof.
  intros Hlen. cbn [bigEndian]. pose proof (bigEndian_bound rest) as Hr.
  rewrite Hlen in *. change (Z.of_nat 31) with 31 in *.
  unfold FELT252_MAX.
  replace (2 ^ 251) with (8 * 256 ^ 31) by reflexivity.
  set (m := 256 ^ 31) in *. assert (0 < m) by reflexivity.
  destruct (Z.leb_spec 8 (byteVal b)).
  - apply Z.ltb_lt. nia.
  - apply Z.ltb_ge. nia.
Qed.

(** The public and the shielded generator, for any Bech32 library that
    encodes the payload to a text of the right form and decodes that text
    back to the payload: the generated address validates exactly when the
    masked first byte is below 8. The mask [0x0f] admits the bytes 8 to
    15, whose values lie above [FELT252_MAX]. *)
Lemma generated_flat_vector bech32 random fuel fmt address words :
  fmt = public \/ fmt = shielded ->
  let payload := toUint8 1 :: randomMasked random in
  encode bech32 (hrpOf fmt) (toWords bech32 (map byteVal payload))
    = inr address ->
  detectAddressFormat address = fmt ->
  decode bech32 (trim address) = inr (hrpOf fmt, words) ->
  fromWords bech32 words = inr (map byteVal payload) ->
  generateTestVector bech32 random fuel fmt = Some (inr address)
  /\ validateStarknetAddress bech32 address =
       if 8 <=? byteVal (hd x00 (randomMasked random)) then
         invalid fmt exceedsFeltMessage
       else
         valid fmt
           {| hrp := Some (hrpOf fmt); version := Some 1;
              payload := Some (randomMasked random); receivers := None;
              felt252 := Some (lit "0x" ++ bytesToHex (randomMasked random));
              checksum := None |}.
Proof.
  intros Hfmt payload Henc Hdet Hdec Hfrom. split.
  - destruct Hfmt as [-> | ->]; cbn [generateTestVector]; unfold encodeOr;
      cbn [hrpOf] in Henc; fold payload; now rewrite Henc.
  - assert (Hv : validateStarknetAddress bech32 address =
                   validateSimpleAddress fmt (hrpOf fmt) 1 (randomMasked random)).
    { rewrite validateStarknetAddress_switch
        by (apply detect_nonempty; rewrite Hdet; destruct Hfmt; subst; discriminate).
      rewrite Hdet.
      destruct Hfmt; subst fmt;
        now rewrite (validateBech32Address_decoded bech32 address _ _ words
                       (map byteVal payload) (toUint8 1) (randomMasked random)
                       Hdec eq_refl Hfrom (map_toUint8_byteVal payload)). }
    rewrite Hv, validateSimpleAddress_cascade.
    destruct (randomMasked_shape random) as (b & rest & -> & _ & Hlen).
    cbn [Z.eqb Pos.eqb negb length hd]. rewrite Hlen. cbn [Nat.eqb negb].
    now rewrite felt_bound_first_byte.
Qed.

(** The unified generator, for any Bech32 library that encodes the
    payload to a text of the right form and decodes that text back to the
    payload: the generated address validates. The receiver value is not
    compared with [FELT252_MAX]. *)
Lemma generated_unified_vector bech32 random fuel address words :
  let payload :=
    toUint8 1 :: toUint8 TLV_TYPES.PUBLIC_KEY :: toUint8 32
      :: randomMasked random in
  encode bech32 STARKNET_HRPS.unified (toWords bech32 (map byteVal payload))
    = inr address ->
  detectAddressFormat address = unified ->
  decode bech32 (trim address) = inr (STARKNET_HRPS.unified, words) ->
  fromWords bech32 words = inr (map byteVal payload) ->
  generateTestVector bech32 random fuel unified = Some (inr address)
  /\ isValid (validateStarknetAddress bech32 address) = true
  /\ receiversOf (validateStarknetAddress bech32 address) =
       Some [mkReceiver 0 (randomMasked random) (Some (lit "Public key receiver"))].
Proof.
  intros payload Henc Hdet Hdec Hfrom. split.
  - cbn [generateTestVector]. unfold encodeOr. fold payload. now rewrite Henc.
  - rewrite (validateStarknetAddress_unified bech32 address words
               (map byteVal payload) (toUint8 1)
               (toUint8 TLV_TYPES.PUBLIC_KEY :: toUint8 32 :: randomMasked random)
               Hdet Hdec Hfrom (map_toUint8_byteVal payload)).
    destruct (randomMasked_shape random) as (b & rest & Hshape & _ & Hlen).
    assert (Hacc : forallb accepted [(x00, randomMasked random)] = true).
    { unfold accepted. cbn [forallb fst snd]. rewrite Hshape. cbn [length].
      now rewrite Hlen. }
    pose proof (validateUnified_records STARKNET_HRPS.unified
                  [(x00, randomMasked random)] Hacc ltac:(discriminate)) as H.
    assert (Hwire : tlvAll [(x00, randomMasked random)] =
                      toUint8 TLV_TYPES.PUBLIC_KEY :: toUint8 32 :: randomMasked random).
    { unfold tlvAll, tlv. cbn [map concat fst snd]. rewrite app_nil_r.
      rewrite Hshape. cbn [length]. now rewrite Hlen. }
    rewrite Hwire in H. change (byteVal (toUint8 1)) with 1. rewrite H.
    split; reflexivity.
Qed.

(** *** The legacy generator *)

Lemma Qfloor_unit (r : Q) (k : Z) :
  (0 <= r)%Q -> (r < 1)%Q -> 0 < k -> 0 <= Qfloor (r * inject_Z k) < k.
Proof.
  intros H0 H1 Hk. split.
  - change 0 with (Qfloor 0). apply Qfloor_resp_le.
    apply Qmult_le_0_compat; [assumption|].
    change 0%Q with (inject_Z 0). rewrite <- Zle_Qle. lia.
  - rewrite Zlt_Qlt. apply Qle_lt_trans with (r * inject_Z k)%Q.
    + apply Qfloor_le.
    + rewrite <- (Qmult_1_l (inject_Z k)) at 2.
      apply Qmult_lt_compat_r; [|assumption].
      change 0%Q with (inject_Z 0). rewrite <- Zlt_Qlt. lia.
Qed.

Lemma toStringRadix_digit d : 0 <= d < 16 -> toStringRadix 16 d = [digitChar d].
Proof.
  intros Hd. replace d with (Z.of_nat (Z.to_nat d)) by lia.
  assert (Hn : (Z.to_nat d < 16)%nat) by lia. revert Hn.
  generalize (Z.to_nat d). intros n Hn.
  do 16 (destruct n as [|n]; [reflexivity|]). lia.
Qed.

(** A draw of the unit interval gives one hexadecimal digit. *)
Lemma randomHex_digit r :
  (0 <= r)%Q -> (r < 1)%Q ->
  exists c, randomHex r = [c] /\ isHexDigit c = true.
Proof.
  intros H0 H1. pose proof (Qfloor_unit r 16 H0 H1 eq_refl) as Hd.
  change (inject_Z 16) with 16%Q in Hd.
  exists (digitChar (Qfloor (r * 16))). unfold randomHex.
  rewrite toStringRadix_digit by exact Hd. split; [reflexivity|].
  unfold isHexDigit. now rewrite (proj1 (hexValue_digitChar _ Hd)).
Qed.

Lemma randomHex_digits rs :
  Forall (fun r => (0 <= r)%Q /\ (r < 1)%Q) rs ->
  length (concat (map randomHex rs)) = length rs
  /\ forallb isHexDigit (concat (map randomHex rs)) = true.
Proof.
  induction 1 as [|r rs [H0 H1] _ [IHl IHh]]; [now split|].
  destruct (randomHex_digit r H0 H1) as (c & Hc & Hhex).
  cbn [map concat]. rewrite Hc. cbn [app length forallb].
  now rewrite IHl, Hhex, IHh.
Qed.

Lemma forallb_skipn {A} (f : A -> bool) n l :
  forallb f l = true -> forallb f (skipn n l) = true.
Proof.
  revert l. induction n as [|n IH]; intros [|a l]; cbn; try easy.
  intros [_ H]%andb_true_iff. now apply IH.
Qed.

(** One round of the legacy loop builds 64 hexadecimal digits. *)
Lemma legacy_round random pos :
  (forall i, (0 <= random i)%Q /\ (random i < 1)%Q) ->
  let hexAddr :=
    lit "0" ++ sliceFrom (concat (map randomHex (draws random pos 64))) 1 in
  length hexAddr = 64%nat /\ forallb isHexDigit hexAddr = true.
Proof.
  intros Hr hexAddr. subst hexAddr.
  destruct (randomHex_digits (draws random pos 64)) as [Hl Hh].
  { unfold draws. apply Forall_forall. intros r [i [<- _]]%in_map_iff. apply Hr. }
  unfold sliceFrom. split.
  - change (lit "0" ++ ?x) with (48 :: x). cbn [length].
    rewrite length_skipn, Hl. unfold draws. now rewrite length_map, length_seq.
  - change (lit "0" ++ ?x) with (48 :: x). cbn [forallb].
    now rewrite forallb_skipn.
Qed.

(** Whatever the loop returns validates. *)
Lemma legacyLoop_valid bech32 random address fuel : forall pos,
  (forall i, (0 <= random i)%Q /\ (random i < 1)%Q) ->
  legacyLoop random fuel pos = Some (inr address) ->
  isValid (validateStarknetAddress bech32 address) = true.
Proof.
  induction fuel as [|fuel IH]; intros pos Hr; [discriminate|].
  cbn [legacyLoop].
  destruct (legacy_round random pos Hr) as [Hl Hh].
  set (hexAddr := lit "0" ++ _) in *.
  rewrite BigInt_hex by (assumption || now destruct hexAddr).
  destruct (FELT252_MAX <? hexNumber hexAddr) eqn:Hbound; [now apply IH|].
  intros [= <-]. change (48 :: 120 :: hexAddr) with (lit "0x" ++ hexAddr).
  rewrite validateStarknetAddress_0x, validateLegacyAddress_hex, Hbound
    by (assumption || lia).
  reflexivity.
Qed.

(** The legacy generator: whatever the draws of the unit interval, and
    however many rounds the loop takes, the address it returns validates.
    The rejection loop makes up for the digits 8 to 15 that the forced
    leading [0] leaves to the second digit. *)
Lemma generated_legacy_vector bech32 random fuel address :
  (forall i, (0 <= random i)%Q /\ (random i < 1)%Q) ->
  generateTestVector bech32 random fuel legacy = Some (inr address) ->
  isValid (validateStarknetAddress bech32 address) = true.
Proof.
  intros Hr. cbn [generateTestVector]. now apply legacyLoop_valid.
Qed.

Lemma randomHex_unit r :
  (0 <= r)%Q -> (r < 1)%Q -> randomHex r = [digitChar (Qfloor (r * 16))].
Proof.
  intros H0 H1. pose proof (Qfloor_unit r 16 H0 H1 eq_refl) as Hd.
  change (inject_Z 16) with 16%Q in Hd.
  unfold randomHex. now apply toStringRadix_digit.
Qed.

(** The value built in one round lies below [(d + 1) * 16^62], where [d]
    is the digit of the round's second draw. *)
Lemma legacy_round_value random pos :
  (forall i, (0 <= random i)%Q /\ (random i < 1)%Q) ->
  hexNumber
    (lit "0" ++ sliceFrom (concat (map randomHex (draws random pos 64))) 1)
  < (Qfloor (random (S pos) * 16) + 1) * 16 ^ 62.
Proof.
  intros Hr. unfold draws.
  change (seq pos 64) with (pos :: S pos :: seq (S (S pos)) 62).
  cbn [map concat].
  rewrite (randomHex_unit (random pos)), (randomHex_unit (random (S pos)))
    by apply Hr.
  cbn [app sliceFrom skipn].
  set (rest := concat _).
  assert (Hrest : length rest = 62%nat).
  { subst rest.
    destruct (randomHex_digits (map random (seq (S (S pos)) 62))) as [Hlen _].
    - apply Forall_forall. intros r [i [<- _]]%in_map_iff. apply Hr.
    - now rewrite Hlen, length_map, length_seq. }
  change (lit "0" ++ ?x) with (48 :: x). cbn [hexNumber length].
  pose proof (hexNumber_bound rest) as Hb. rewrite Hrest in *.
  destruct (Hr (S pos)) as [H0 H1].
  pose proof (Qfloor_unit (random (S pos)) 16 H0 H1 eq_refl) as Hd.
  change (inject_Z 16) with 16%Q in Hd.
  unfold digitOf at 2. rewrite (proj1 (hexValue_digitChar _ Hd)).
  change (digitOf 48) with 0. change (Z.of_nat 62) with 62 in *. lia.
Qed.

(** The loop ends within [k + 1] rounds when the second draw of round
    [k] is below one half, that is when its digit is below 8. *)
Lemma legacyLoop_returns random k : forall fuel pos,
  (forall i, (0 <= random i)%Q /\ (random i < 1)%Q) ->
  (random (pos + 64 * k + 1)%nat < 1 # 2)%Q ->
  (k < fuel)%nat ->
  exists address, legacyLoop random fuel pos = Some (inr address).
Proof.
  induction k as [|k IH]; intros fuel pos Hr Hhalf Hfuel;
    (destruct fuel as [|fuel]; [lia|]); cbn [legacyLoop];
    destruct (legacy_round random pos Hr) as [Hl Hh];
    pose proof (legacy_round_value random pos Hr) as Hv;
    set (hexAddr := lit "0" ++ _) in *;
    rewrite BigInt_hex by (assumption || now destruct hexAddr);
    (destruct (FELT252_MAX <? hexNumber hexAddr) eqn:Hbound; [|now eexists]).
  - exfalso. apply Z.ltb_lt in Hbound.
    replace (pos + 64 * 0 + 1)%nat with (S pos) in Hhalf by lia.
    assert (Hd : Qfloor (random (S pos) * 16) < 8).
    { rewrite Zlt_Qlt. apply Qle_lt_trans with (random (S pos) * 16)%Q;
        [apply Qfloor_le|].
      apply Qlt_le_trans with ((1 # 2) * 16)%Q;
        [apply Qmult_lt_compat_r; [reflexivity|exact Hhalf]|discriminate]. }
    unfold FELT252_MAX in Hbound.
    replace (2 ^ 251) with (8 * 16 ^ 62) in Hbound by reflexivity.
    assert (0 < 16 ^ 62) by reflexivity. nia.
  - apply IH; [assumption| |lia].
    now replace (pos + 64 + 64 * k + 1)%nat with (pos + 64 * S k + 1)%nat by lia.
Qed.

(** The legacy generator returns: as soon as some round draws a second
    digit below 8 the loop ends, there at the latest, given that many
    rounds of fuel. *)
Lemma generated_legacy_vector_returns bech32 random k fuel :
  (forall i, (0 <= random i)%Q /\ (random i < 1)%Q) ->
  (random (64 * k + 1)%nat < 1 # 2)%Q ->
  (k < fuel)%nat ->
  exists address,
    generateTestVector bech32 random fuel legacy = Some (inr address).
Proof.
  intros Hr Hhalf Hfuel. cbn [generateTestVector].
  now apply (legacyLoop_returns random k fuel 0%nat).
Qed.

(** The loop ends in its first round when the second digit is below 8. *)
Example generated_legacy_vector_example :
  generateTestVector Bech32.library (fun _ => 1 # 3) 1 legacy =
    Some (inr (lit "0x0555555555555555555555555555555555555555555555555555555555555555"))
  /\ isValid (validateStarknetAddress Bech32.library
                (lit "0x0555555555555555555555555555555555555555555555555555555555555555"))
     = true.
Proof. evaluate. Qed.

(** *** The model of the package on published test vectors *)

(** Valid Bech32 strings of BIP-173, and the witness program of the
    address [bc1qw508d6qejxtdg4y5r3zarvary0c5xw7kv8f3t4]. *)
Example bech32_reference_vectors :
  Bech32.decode (lit "A12UEL5L") = inr (lit "a", [])
  /\ Bech32.encode (lit "a") [] = inr (lit "a12uel5l")
  /\ Bech32.decode (lit "abcdef1qpzry9x8gf2tvdw0s3jn54khce6mua7lmqqqxw") =
       inr (lit "abcdef", map Z.of_nat (seq 0 32))
  /\ Bech32.encode (lit "abcdef") (map Z.of_nat (seq 0 32)) =
       inr (lit "abcdef1qpzry9x8gf2tvdw0s3jn54khce6mua7lmqqqxw")
  /\ match Bech32.decode (lit "bc1qw508d6qejxtdg4y5r3zarvary0c5xw7kv8f3t4") with
     | inr (prefix, version :: words) =>
         prefix = lit "bc" /\ version = 0
         /\ Bech32.fromWords words =
              inr [0x75; 0x1e; 0x76; 0xe8; 0x19; 0x91; 0x96; 0xd4; 0x54; 0x94;
                   0x1c; 0x45; 0xd1; 0xb3; 0xa3; 0x23; 0xf1; 0x43; 0x3b; 0xd6]
         /\ Bech32.toWords
              [0x75; 0x1e; 0x76; 0xe8; 0x19; 0x91; 0x96; 0xd4; 0x54; 0x94;
               0x1c; 0x45; 0xd1; 0xb3; 0xa3; 0x23; 0xf1; 0x43; 0x3b; 0xd6] = words
     | _ => False
     end
  /\ Bech32.decode (lit "A12UEL5l") =
       inl (ErrorObject (lit "Mixed-case string A12UEL5l"))
  /\ Bech32.decode (lit "a12uel5m") =
       inl (ErrorObject (lit "Invalid checksum for a12uel5m")).
Proof.
  do 4 (split; [vm_compute; reflexivity|]).
  split; [vm_compute; repeat split|evaluate].
Qed.

(** *** The round trip *)

(** C1, at a failing input. With every draw of [Math.random()] equal to
    [17/32], [generateTestVector("public")] returns the Bech32 text of the
    payload [01 08 88 ... 88], and [validateStarknetAddress] rejects that
    text: the masked first byte [0x08] puts the value at [2^251] or above.
    The shielded generator fails in the same way, while the unified one,
    whose receiver value is not compared with the bound, validates. *)
Theorem generated_public_vector_rejected :
  generateTestVector Bech32.library draws_17_32 1 public =
    Some (inr (lit "strk1qyyg3zyg3zyg3zyg3zyg3zyg3zyg3zyg3zyg3zyg3zyg3zyg3zygsn6emv3"))
  /\ validateStarknetAddress Bech32.library
       (lit "strk1qyyg3zyg3zyg3zyg3zyg3zyg3zyg3zyg3zyg3zyg3zyg3zyg3zygsn6emv3") =
     invalid public (lit "Address exceeds felt252 maximum value (2^251 - 1)")
  /\ generateTestVector Bech32.library draws_17_32 1 shielded =
       Some (inr (lit "strkx1qyyg3zyg3zyg3zyg3zyg3zyg3zyg3zyg3zyg3zyg3zyg3zyg3zygsgnq8pu"))
  /\ validateStarknetAddress Bech32.library
       (lit "strkx1qyyg3zyg3zyg3zyg3zyg3zyg3zyg3zyg3zyg3zyg3zyg3zyg3zygsgnq8pu") =
     invalid shielded (lit "Address exceeds felt252 maximum value (2^251 - 1)")
  /\ generateTestVector Bech32.library draws_17_32 1 unified =
       Some (inr (lit "strku1qyqzqzyg3zyg3zyg3zyg3zyg3zyg3zyg3zyg3zyg3zyg3zyg3zyg3zygrr8shk"))
  /\ isValid (validateStarknetAddress Bech32.library
                (lit "strku1qyqzqzyg3zyg3zyg3zyg3zyg3zyg3zyg3zyg3zyg3zyg3zyg3zyg3zygrr8shk"))
     = true.
Proof. evaluate. Qed.

(** The same failure, derived from the general statement on the flat
    generators instantiated with the model of the [bech32] package. *)
Example generated_flat_vector_example :
  isValid (validateStarknetAddress Bech32.library
             (lit "strk1qyyg3zyg3zyg3zyg3zyg3zyg3zyg3zyg3zyg3zyg3zyg3zyg3zygsn6emv3"))
  = false.
Proof.
  pose proof (fun Henc Hdet Hdec Hfrom =>
                proj2 (generated_flat_vector Bech32.library draws_17_32 1 public
                  (lit "strk1qyyg3zyg3zyg3zyg3zyg3zyg3zyg3zyg3zyg3zyg3zyg3zyg3zygsn6emv3")
                  (Bech32.toWords
                     (map byteVal (toUint8 1 :: randomMasked draws_17_32)))
                  (or_introl eq_refl) Henc Hdet Hdec Hfrom)) as H.
  rewrite H; [reflexivity|vm_compute; reflexivity ..].
Qed.

(** The general statement on the unified generator, instantiated in the
    same way: the generated address validates with its one receiver. *)
Example generated_unified_vector_example :
  receiversOf
    (validateStarknetAddress Bech32.library
       (lit "strku1qyqzqzyg3zyg3zyg3zyg3zyg3zyg3zyg3zyg3zyg3zyg3zyg3zyg3zygrr8shk"))
  = Some [mkReceiver 0 (randomMasked draws_17_32)
            (Some (lit "Public key receiver"))].
Proof.
  pose proof (fun Henc Hdet Hdec Hfrom =>
                proj2 (proj2 (generated_unified_vector Bech32.library draws_17_32 1
                  (lit "strku1qyqzqzyg3zyg3zyg3zyg3zyg3zyg3zyg3zyg3zyg3zyg3zyg3zyg3zygrr8shk")
                  (Bech32.toWords
                     (map byteVal
                        (toUint8 1 :: toUint8 TLV_TYPES.PUBLIC_KEY :: toUint8 32
                           :: randomMasked draws_17_32)))
                  Henc Hdet Hdec Hfrom))) as H.
  rewrite H; [reflexivity|vm_compute; reflexivity ..].
Qed.

(* ===================================================================== *)
(** ** Surrounding white space                                            *)
(* ===================================================================== *)

(** What [trimStart] removes is white space, and what it leaves does not
    start with white space. *)
Lemma trimStart_split s :
  exists p, s = p ++ trimStart s /\ forallb isWhiteSpace p = true.
Proof.
  induction s as [|c s (p & Hs & Hp)]; [now exists []|].
  cbn [trimStart]. destruct (isWhiteSpace c) eqn:Hc.
  - exists (c :: p). cbn. now rewrite Hc, Hp, <- Hs.
  - now exists [].
Qed.

Lemma trimStart_head s c :
  hd_error (trimStart s) = Some c -> isWhiteSpace c = false.
Proof.
  induction s as [|d s IH]; [discriminate|]. cbn [trimStart].
  destruct (isWhiteSpace d) eqn:Hd; [exact IH|]. now intros [= <-].
Qed.

Lemma trimStart_idempotent s : trimStart (trimStart s) = trimStart s.
Proof. apply trimStart_fixed, trimStart_head. Qed.

(** Neither end of a trimmed string is white space. *)
Lemma trim_ends s :
  (forall c, hd_error (trim s) = Some c -> isWhiteSpace c = false)
  /\ (forall c, hd_error (rev (trim s)) = Some c -> isWhiteSpace c = false).
Proof.
  unfold trim, trimEnd. set (t := trimStart s). split.
  - destruct (trimStart_split (rev t)) as (p & Ht & _).
    apply (f_equal (@rev Z)) in Ht. rewrite rev_involutive, rev_app_distr in Ht.
    intros c Hc. apply (trimStart_head s). fold t. rewrite Ht.
    destruct (rev (trimStart (rev t))); [discriminate|exact Hc].
  - rewrite rev_involutive. apply trimStart_head.
Qed.

Lemma trim_idempotent s : trim (trim s) = trim s.
Proof. destruct (trim_ends s). now apply trim_fixed. Qed.

Lemma detect_trim input :
  detectAddressFormat (trim input) = detectAddressFormat input.
Proof. unfold detectAddressFormat. now rewrite trim_idempotent. Qed.

(** The entry point reads its input through [trim] only, once the input
    is known not to be the empty string. *)
Lemma validateStarknetAddress_same_trim bech32 a b :
  a <> [] -> b <> [] -> trim a = trim b ->
  validateStarknetAddress bech32 a = validateStarknetAddress bech32 b.
Proof.
  intros Ha Hb Hab. rewrite !validateStarknetAddress_switch by assumption.
  unfold detectAddressFormat, validateLegacyAddress, validateBech32Address.
  now rewrite Hab.
Qed.

(** X2. White space around an address never changes the verdict: for every
    string whose trimmed form is not empty, validating the string and
    validating its trimmed form give the same result, and the detector
    gives both the same tag. A non-empty string of white space only is
    reported as an unknown format. *)
Theorem surrounding_white_space_is_ignored bech32 input :
  detectAddressFormat (trim input) = detectAddressFormat input
  /\ (trim input <> [] ->
      validateStarknetAddress bech32 (trim input) =
        validateStarknetAddress bech32 input)
  /\ (input <> [] -> trim input = [] ->
      validateStarknetAddress bech32 input =
        invalid unknown unknownFormatMessage).
Proof.
  split; [apply detect_trim|]. split.
  - intros Hne. apply validateStarknetAddress_same_trim;
      [assumption|intros ->; now apply Hne|apply trim_idempotent].
  - intros Hne Ht. rewrite validateStarknetAddress_switch by assumption.
    unfold detectAddressFormat. now rewrite Ht.
Qed.

Lemma surrounding_white_space_is_ignored_witness :
  validateStarknetAddress Bech32.library (trim (lit "  0x1f ")) =
    validateStarknetAddress Bech32.library (lit "  0x1f ")
  /\ validateStarknetAddress Bech32.library (lit "   ") =
       invalid unknown unknownFormatMessage.
Proof.
  destruct (surrounding_white_space_is_ignored Bech32.library (lit "  0x1f "))
    as (_ & Hsame & _).
  destruct (surrounding_white_space_is_ignored Bech32.library (lit "   "))
    as (_ & _ & Hblank).
  split; [apply Hsame|apply Hblank]; (discriminate || reflexivity).
Defined.

(* ===================================================================== *)
(** ** The legacy validator on every input                                *)
(* ===================================================================== *)

(** The legacy validator on any input detected as legacy: its verdict is
    that of the characters after [0x]. *)
Lemma validateLegacyAddress_verdict input :
  startsWith (trim input) (lit "0x") = true ->
  trim input = lit "0x" ++ sliceFrom (trim input) 2
  /\ validateLegacyAddress input = legacyVerdict (sliceFrom (trim input) 2).
Proof.
  intros Hp. split; [exact (startsWith_inv _ _ Hp)|].
  unfold validateLegacyAddress, legacyVerdict. rewrite Hp. cbn [negb].
  destruct (sliceFrom (trim input) 2) as [|c h] eqn:Hh; [reflexivity|].
  replace (length (c :: h) =? 0)%nat with false by reflexivity.
  change (test_hex (c :: h)) with (forallb isHexDigit (c :: h)).
  destruct (forallb isHexDigit (c :: h)) eqn:Hhex; [|reflexivity]. cbn [negb].
  destruct (64 <? length (c :: h))%nat; [reflexivity|].
  now rewrite BigInt_padded by (assumption || discriminate).
Qed.

Lemma detect_legacy input :
  detectAddressFormat input = legacy <-> startsWith (trim input) (lit "0x") = true.
Proof.
  unfold detectAddressFormat.
  destruct (startsWith (trim input) (lit "0x")); [easy|].
  repeat match goal with
         | |- context [if ?b then _ else _] => destruct b
         end; easy.
Qed.

Lemma validateStarknetAddress_legacy bech32 input :
  detectAddressFormat input = legacy ->
  validateStarknetAddress bech32 input = legacyVerdict (sliceFrom (trim input) 2).
Proof.
  intros Hf.
  rewrite validateStarknetAddress_switch
    by (apply detect_nonempty; rewrite Hf; discriminate).
  rewrite Hf. now apply validateLegacyAddress_verdict, detect_legacy.
Qed.

(** X3. The verdict on an input detected as legacy is decided by the
    characters [h] that follow [0x] in the trimmed input, in this order:
    none gives [Address cannot be empty after 0x]; a character that is not
    a hexadecimal digit gives the invalid-characters error; more than 64
    digits give the too-long error; a value above [FELT252_MAX] gives the
    felt252 error; anything else succeeds. The two other error texts of
    the legacy validator, for a missing [0x] and for a number that does
    not parse, are never returned by the entry point. *)
Theorem legacy_verdict bech32 input :
  detectAddressFormat input = legacy ->
  let h := sliceFrom (trim input) 2 in
  let result := validateStarknetAddress bech32 input in
  trim input = lit "0x" ++ h
  /\ result =
       match h with
       | [] => invalid legacy (lit "Address cannot be empty after 0x")
       | _ =>
           if negb (forallb isHexDigit h) then
             invalid legacy (lit "Address contains invalid hexadecimal characters")
           else if (64 <? length h)%nat then
             invalid legacy (lit "Address is too long (max 64 hex characters)")
           else if FELT252_MAX <? hexNumber h then
             invalid legacy (lit "Address exceeds felt252 maximum value (2^251 - 1)")
           else
             legacyOk (lit "0x" ++ padStart h 64 48)
       end
  /\ error result <> Some (lit "Legacy address must start with 0x")
  /\ error result <> Some (lit "Failed to parse address as number").
Proof.
  intros Hf h result.
  assert (Hr : result = legacyVerdict h)
    by now apply validateStarknetAddress_legacy.
  split; [now apply validateLegacyAddress_verdict, detect_legacy|].
  split; [exact Hr|].
  rewrite Hr. unfold legacyVerdict.
  destruct h; [split; discriminate|].
  repeat match goal with
         | |- context [if ?b then _ else _] => destruct b
         end; split; discriminate.
Qed.

Lemma legacy_verdict_witness :
  validateStarknetAddress Bech32.library (lit " 0x12g4 ") =
    invalid legacy (lit "Address contains invalid hexadecimal characters").
Proof.
  exact (proj1 (proj2 (legacy_verdict Bech32.library (lit " 0x12g4 ") eq_refl))).
Defined.

(** *** Leading zeros and the canonical form *)

Lemma padStart_zeros k h :
  (k + length h <= 64)%nat ->
  padStart (repeat 48 k ++ h) 64 48 = padStart h 64 48.
Proof.
  intros H. unfold padStart. rewrite length_app, repeat_length, app_assoc.
  rewrite <- repeat_app. f_equal. f_equal. lia.
Qed.

Lemma padStart_full (h : jsstring) n c : (n <= length h)%nat -> padStart h n c = h.
Proof.
  intros H. unfold padStart. now replace (n - length h)%nat with 0%nat by lia.
Qed.

(** A successful legacy verdict tells what the digits were. *)
Lemma legacyVerdict_felt h f :
  feltOf (legacyVerdict h) = Some f ->
  f = lit "0x" ++ padStart h 64 48
  /\ (1 <= length h <= 64)%nat
  /\ forallb isHexDigit h = true
  /\ hexNumber h <= FELT252_MAX
  /\ legacyVerdict h = legacyOk f.
Proof.
  unfold legacyVerdict. destruct h as [|c h]; [discriminate|].
  destruct (forallb isHexDigit (c :: h)) eqn:Hhex; [|discriminate]. cbn [negb].
  destruct (64 <? length (c :: h))%nat eqn:H64; [discriminate|].
  destruct (FELT252_MAX <? hexNumber (c :: h)) eqn:Hmax; [discriminate|].
  intros [= <-]. apply Nat.ltb_ge in H64. apply Z.ltb_ge in Hmax.
  repeat split; try assumption. cbn [length]. lia.
Qed.

(** X4. Leading zeros do not matter, and the returned form is canonical:
    for hexadecimal digits [h] and [k] zeros before them, at most 64 digits
    in all, [0x00..0h] and [0xh] get the same result, [felt252] included;
    and every [felt252] returned for a legacy input is itself a valid
    legacy address whose [felt252] is that same text. *)
Theorem legacy_canonical_form bech32 :
  (forall h k,
      forallb isHexDigit h = true -> (1 <= length h)%nat ->
      (k + length h <= 64)%nat ->
      validateStarknetAddress bech32 (lit "0x" ++ repeat 48 k ++ h) =
        validateStarknetAddress bech32 (lit "0x" ++ h))
  /\ (forall input f,
        detectAddressFormat input = legacy ->
        feltOf (validateStarknetAddress bech32 input) = Some f ->
        validateStarknetAddress bech32 input = legacyOk f
        /\ validateStarknetAddress bech32 f = legacyOk f).
Proof.
  split.
  - intros h k Hh H1 Hk.
    assert (Hz : forallb isHexDigit (repeat 48 k ++ h) = true).
    { rewrite forallb_app, Hh, andb_true_r.
      clear. induction k; [reflexivity|assumption]. }
    rewrite !validateStarknetAddress_0x, !validateLegacyAddress_hex
      by (assumption || rewrite ?length_app, ?repeat_length; lia).
    now rewrite hexNumber_zeros, padStart_zeros.
  - intros input f Hf Hfelt.
    rewrite validateStarknetAddress_legacy in * by assumption.
    apply legacyVerdict_felt in Hfelt as (-> & Hlen & Hh & Hmax & Hok).
    split; [exact Hok|].
    assert (Hp : forallb isHexDigit (padStart (sliceFrom (trim input) 2) 64 48)
                 = true) by now apply forallb_hex_padStart.
    assert (Hl : length (padStart (sliceFrom (trim input) 2) 64 48) = 64%nat)
      by (apply length_padStart; lia).
    rewrite validateStarknetAddress_0x, validateLegacyAddress_hex
      by (assumption || lia).
    unfold padStart at 1. rewrite hexNumber_zeros.
    replace (FELT252_MAX <? hexNumber (sliceFrom (trim input) 2)) with false
      by (symmetry; now apply Z.ltb_ge).
    now rewrite (padStart_full (padStart _ 64 48)) by lia.
Qed.

Lemma legacy_canonical_form_witness :
  validateStarknetAddress Bech32.library (lit "0x" ++ repeat 48 3 ++ lit "1f") =
    validateStarknetAddress Bech32.library (lit "0x" ++ lit "1f")
  /\ validateStarknetAddress Bech32.library
       (lit "0x000000000000000000000000000000000000000000000000000000000000001F")
     = legacyOk
         (lit "0x000000000000000000000000000000000000000000000000000000000000001F").
Proof.
  split.
  - apply (proj1 (legacy_canonical_form Bech32.library) (lit "1f") 3%nat);
      [reflexivity|cbn; lia|cbn; lia].
  - apply (proj2 (legacy_canonical_form Bech32.library) (lit "0x1F"));
      [reflexivity|vm_compute; reflexivity].
Defined.

(* ===================================================================== *)
(** ** The shape of every result                                          *)
(* ===================================================================== *)

Lemma wellShaped_invalid f e : wellShaped (invalid f e).
Proof. left. cbn. eauto. Qed.

Lemma wellShaped_valid f p : wellShaped (valid f p).
Proof. right. cbn. eauto. Qed.

Lemma wellShaped_validateSimpleAddress f hrp v bytes :
  wellShaped (validateSimpleAddress f hrp v bytes).
Proof.
  rewrite validateSimpleAddress_cascade.
  repeat match goal with
         | |- context [if ?b then _ else _] => destruct b
         end; (apply wellShaped_invalid || apply wellShaped_valid).
Qed.

Lemma wellShaped_validateUnifiedAddress hrp v bytes :
  wellShaped (validateUnifiedAddress hrp v bytes).
Proof.
  unfold validateUnifiedAddress.
  destruct (negb (v =? 1)); [apply wellShaped_invalid|].
  destruct (parseTLV bytes 0 []) as [result|out] eqn:E.
  - apply parseTLV_invalid in E as [e ->]. apply wellShaped_invalid.
  - destruct (length out =? 0)%nat;
      [apply wellShaped_invalid|apply wellShaped_valid].
Qed.

Lemma wellShaped_validateBech32Address bech32 input f :
  wellShaped (validateBech32Address bech32 input f).
Proof.
  unfold validateBech32Address, decodeError.
  destruct (decode bech32 (trim input)) as [e|[prefix words]];
    [apply wellShaped_invalid|].
  cbv zeta. destruct (negb (streq prefix _)); [apply wellShaped_invalid|].
  destruct (fromWords bech32 words) as [e|numbers]; [apply wellShaped_invalid|].
  destruct (length (map toUint8 numbers) =? 0)%nat; [apply wellShaped_invalid|].
  destruct f; try apply wellShaped_validateSimpleAddress.
  apply wellShaped_validateUnifiedAddress.
Qed.

Lemma wellShaped_legacyVerdict h : wellShaped (legacyVerdict h).
Proof.
  unfold legacyVerdict. destruct h; [apply wellShaped_invalid|].
  repeat match goal with
         | |- context [if ?b then _ else _] => destruct b
         end; (apply wellShaped_invalid || apply wellShaped_valid).
Qed.

Lemma wellShaped_validateStarknetAddress bech32 input :
  wellShaped (validateStarknetAddress bech32 input).
Proof.
  destruct input as [|c input]; [apply wellShaped_invalid|].
  rewrite validateStarknetAddress_switch by discriminate.
  destruct (detectAddressFormat (c :: input)) eqn:Hf;
    try apply wellShaped_validateBech32Address.
  - apply detect_legacy in Hf.
    rewrite (proj2 (validateLegacyAddress_verdict _ Hf)).
    apply wellShaped_legacyVerdict.
  - apply wellShaped_invalid.
Qed.

(** X1. Every result of the entry point, for every string and every
    implementation of the Bech32 library (one that throws included), is
    either a failure that carries an error text and no parsed data, or a
    success that carries parsed data and no error: [error] is set exactly
    when [isValid] is false, [parsed] exactly when it is true. *)
Theorem result_is_failure_or_success bech32 input :
  let result := validateStarknetAddress bech32 input in
  (isValid result = false /\ (exists e, error result = Some e)
   /\ parsed result = None)
  \/ (isValid result = true /\ error result = None
      /\ exists p, parsed result = Some p).
Proof. exact (wellShaped_validateStarknetAddress bech32 input). Qed.

(* ===================================================================== *)
(** ** Detection                                                          *)
(* ===================================================================== *)

(** No string starts with two of the four prefixes. *)
Lemma prefixes_exclusive t :
  (startsWith t (lit "0x") = true ->
   startsWith t (lit "strk1") = false /\ startsWith t (lit "strkx1") = false
   /\ startsWith t (lit "strku1") = false)
  /\ (startsWith t (lit "strk1") = true ->
      startsWith t (lit "strkx1") = false /\ startsWith t (lit "strku1") = false)
  /\ (startsWith t (lit "strkx1") = true -> startsWith t (lit "strku1") = false).
Proof.
  split; [|split]; intros H; apply startsWith_inv in H; rewrite H;
    repeat split; reflexivity.
Qed.

(** X10. The detector returns each tag exactly when the trimmed input
    starts with that tag's prefix: [0x] for legacy, [strk1] for public,
    [strkx1] for shielded, [strku1] for unified, and unknown when it starts
    with none of them. No string starts with two of the prefixes, so the
    order of the tests does not matter. The match is case-sensitive. *)
Theorem detection_by_prefix input :
  (detectAddressFormat input = legacy <->
     startsWith (trim input) (lit "0x") = true)
  /\ (detectAddressFormat input = public <->
        startsWith (trim input) (lit "strk1") = true)
  /\ (detectAddressFormat input = shielded <->
        startsWith (trim input) (lit "strkx1") = true)
  /\ (detectAddressFormat input = unified <->
        startsWith (trim input) (lit "strku1") = true)
  /\ (detectAddressFormat input = unknown <->
        noKnownPrefix (trim input) = true)
  /\ detectAddressFormat (lit "0X1f") = unknown
  /\ detectAddressFormat (lit "STRK1QQ") = unknown.
Proof.
  destruct (prefixes_exclusive (trim input)) as (H0 & H1 & H2).
  unfold detectAddressFormat, noKnownPrefix.
  destruct (startsWith (trim input) (lit "0x")) eqn:E0.
  { destruct (H0 eq_refl) as (-> & -> & ->). repeat split; easy. }
  destruct (startsWith (trim input) (lit "strk1")) eqn:E1.
  { destruct (H1 eq_refl) as (-> & ->). repeat split; easy. }
  destruct (startsWith (trim input) (lit "strkx1")) eqn:E2.
  { rewrite (H2 eq_refl). repeat split; easy. }
  destruct (startsWith (trim input) (lit "strku1")); repeat split; easy.
Qed.

(* ===================================================================== *)
(** ** What a successful Bech32 validation exposes                        *)
(* ===================================================================== *)

Lemma wellShaped_felt r f : wellShaped r -> feltOf r = Some f -> isValid r = true.
Proof.
  unfold feltOf. intros [(_ & _ & Hp)|(Hv & _)]; [|easy].
  rewrite Hp. discriminate.
Qed.

(** A valid result of the Bech32 validator comes from a text that decoded
    to the expected prefix and to a payload of at least one byte. *)
Lemma validateBech32Address_valid bech32 input f :
  isValid (validateBech32Address bech32 input f) = true ->
  exists words numbers v rest,
    decode bech32 (trim input) = inr (hrpOf f, words)
    /\ fromWords bech32 words = inr numbers
    /\ map toUint8 numbers = v :: rest
    /\ validateBech32Address bech32 input f =
         match f with
         | unified => validateUnifiedAddress (hrpOf f) (byteVal v) rest
         | _ => validateSimpleAddress f (hrpOf f) (byteVal v) rest
         end.
Proof.
  intros Hvalid.
  assert (H := Hvalid). revert H. unfold validateBech32Address at 1.
  destruct (decode bech32 (trim input)) as [e|[prefix words]] eqn:Hd;
    [discriminate|].
  cbv zeta. destruct (streq prefix _) eqn:Hp; [|discriminate].
  apply streq_eq in Hp. change (prefix = hrpOf f) in Hp. subst prefix.
  destruct (fromWords bech32 words) as [e|numbers] eqn:Hw; [discriminate|].
  destruct (map toUint8 numbers) as [|v rest] eqn:Hn; [discriminate|].
  intros _. exists words, numbers, v, rest. repeat split; try assumption.
  now apply validateBech32Address_decoded with words numbers.
Qed.

Lemma byteVal_one v : byteVal v = 1 -> v = x01.
Proof. intros H. now rewrite <- (toUint8_byteVal v), H. Qed.

(** A valid result of the flat validator tells what the data was. *)
Lemma validateSimpleAddress_valid fmt hrp v bytes :
  isValid (validateSimpleAddress fmt hrp v bytes) = true ->
  v = 1 /\ length bytes = 32%nat /\ bigEndian bytes <= FELT252_MAX
  /\ validateSimpleAddress fmt hrp v bytes =
       valid fmt
         {| hrp := Some hrp; version := Some 1; payload := Some bytes;
            receivers := None; felt252 := Some (lit "0x" ++ bytesToHex bytes);
            checksum := None |}.
Proof.
  rewrite validateSimpleAddress_cascade.
  destruct (Z.eqb_spec v 1) as [->|]; [|discriminate]. cbn [negb].
  destruct (Nat.eqb_spec (length bytes) 32); [|discriminate]. cbn [negb].
  destruct (Z.ltb_spec FELT252_MAX (bigEndian bytes)); [discriminate|].
  intros _. repeat split; assumption.
Qed.

(** X12. A public or shielded address that validates exposes exactly
    what was decoded: the text decoded to the prefix of its format and to
    33 bytes, the version byte 1 followed by 32 bytes of data whose
    big-endian value is at most [FELT252_MAX]; the result carries that
    prefix, the version 1, those 32 bytes as payload and their
    hexadecimal text as [felt252], and no receivers. *)
Theorem flat_success_exposes_decoded_payload bech32 input fmt :
  fmt = public \/ fmt = shielded ->
  detectAddressFormat input = fmt ->
  isValid (validateStarknetAddress bech32 input) = true ->
  exists words numbers bytes,
    decode bech32 (trim input) = inr (hrpOf fmt, words)
    /\ fromWords bech32 words = inr numbers
    /\ map toUint8 numbers = x01 :: bytes
    /\ length bytes = 32%nat
    /\ bigEndian bytes <= FELT252_MAX
    /\ validateStarknetAddress bech32 input =
         valid fmt
           {| hrp := Some (hrpOf fmt); version := Some 1;
              payload := Some bytes; receivers := None;
              felt252 := Some (lit "0x" ++ bytesToHex bytes);
              checksum := None |}.
Proof.
  intros Hfmt Hf.
  rewrite validateStarknetAddress_switch
    by (apply detect_nonempty; rewrite Hf; destruct Hfmt; subst; discriminate).
  rewrite Hf.
  assert (Hsw : match fmt with
                | legacy => validateLegacyAddress input
                | unknown => invalid unknown unknownFormatMessage
                | _ => validateBech32Address bech32 input fmt
                end = validateBech32Address bech32 input fmt)
    by (destruct Hfmt; now subst).
  replace (match fmt with
           | legacy => validateLegacyAddress input
           | public => validateBech32Address bech32 input public
           | shielded => validateBech32Address bech32 input shielded
           | unified => validateBech32Address bech32 input unified
           | unknown => invalid unknown unknownFormatMessage
           end) with (validateBech32Address bech32 input fmt)
    by (destruct Hfmt; now subst).
  clear Hsw. intros Hvalid.
  destruct (validateBech32Address_valid _ _ _ Hvalid)
    as (words & numbers & v & rest & Hd & Hw & Hn & Hr).
  assert (Hs : validateBech32Address bech32 input fmt =
                 validateSimpleAddress fmt (hrpOf fmt) (byteVal v) rest)
    by (rewrite Hr; destruct Hfmt; now subst).
  rewrite Hs in Hvalid |- *.
  destruct (validateSimpleAddress_valid _ _ _ _ Hvalid) as (Hv & Hl & Hb & Hok).
  apply byteVal_one in Hv. subst v.
  exists words, numbers, rest. repeat split; assumption.
Qed.

Lemma flat_success_exposes_decoded_payload_witness :
  exists bytes,
    length bytes = 32%nat
    /\ feltOf (validateStarknetAddress Bech32.library
                 (lit "strk1qyqqqqqqqqqqqqqqqqqqqqqqqqqqqqqqqqqqqqqqqqqqqqqqqqqqq95tdnq"))
       = Some (lit "0x" ++ bytesToHex bytes).
Proof.
  destruct (flat_success_exposes_decoded_payload Bech32.library
              (lit "strk1qyqqqqqqqqqqqqqqqqqqqqqqqqqqqqqqqqqqqqqqqqqqqqqqqqqqq95tdnq")
              public (or_introl eq_refl) eq_refl)
    as (_ & _ & bytes & _ & _ & _ & Hl & _ & Hr).
  - vm_compute. reflexivity.
  - exists bytes. split; [exact Hl|]. now rewrite Hr.
Defined.

(* ===================================================================== *)
(** ** Field elements                                                     *)
(* ===================================================================== *)

Lemma feltOf_validateUnifiedAddress hrp v bytes :
  feltOf (validateUnifiedAddress hrp v bytes) = None.
Proof.
  unfold validateUnifiedAddress.
  destruct (negb (v =? 1)); [reflexivity|].
  destruct (parseTLV bytes 0 []) as [result|out] eqn:E.
  - apply parseTLV_invalid in E as [e ->]. reflexivity.
  - now destruct (length out =? 0)%nat.
Qed.

(** The [felt252] of a flat validation: 64 digits that denote the value
    of the data, which is within the bound. *)
Lemma validateSimpleAddress_felt fmt hrp v bytes f :
  feltOf (validateSimpleAddress fmt hrp v bytes) = Some f ->
  f = lit "0x" ++ bytesToHex bytes
  /\ length (bytesToHex bytes) = 64%nat
  /\ hexNumber (bytesToHex bytes) <= FELT252_MAX.
Proof.
  intros Hf.
  assert (Hv : isValid (validateSimpleAddress fmt hrp v bytes) = true)
    by (eapply wellShaped_felt; [apply wellShaped_validateSimpleAddress|exact Hf]).
  destruct (validateSimpleAddress_valid _ _ _ _ Hv) as (_ & Hl & Hb & Hok).
  rewrite Hok in Hf. injection Hf as <-.
  destruct (bytesToHex_spec bytes) as (_ & _ & Hn).
  rewrite length_bytesToHex, Hl, Hn. repeat split. exact Hb.
Qed.

Lemma validateBech32Address_felt bech32 input fmt f :
  feltOf (validateBech32Address bech32 input fmt) = Some f ->
  exists digits,
    f = lit "0x" ++ digits /\ length digits = 64%nat
    /\ forallb isLowerHexDigit digits = true
    /\ hexNumber digits <= FELT252_MAX.
Proof.
  intros Hf.
  assert (Hv : isValid (validateBech32Address bech32 input fmt) = true)
    by (eapply wellShaped_felt; [apply wellShaped_validateBech32Address|exact Hf]).
  destruct (validateBech32Address_valid _ _ _ Hv)
    as (words & numbers & v & rest & _ & _ & _ & Hr).
  rewrite Hr in Hf.
  assert (Hs : feltOf (validateSimpleAddress fmt (hrpOf fmt) (byteVal v) rest)
               = Some f).
  { destruct fmt; try exact Hf. now rewrite feltOf_validateUnifiedAddress in Hf. }
  apply validateSimpleAddress_felt in Hs as (-> & Hl & Hb).
  exists (bytesToHex rest). repeat split; try assumption.
  apply bytesToHex_spec.
Qed.

(** X11. Wherever a result carries a [felt252], the validation has
    succeeded, the input was detected as legacy, public or shielded, and
    the text is [0x] followed by exactly 64 hexadecimal digits that denote
    an integer of at most [FELT252_MAX]. A unified address carries none. *)
Theorem felt252_is_within_the_field bech32 input f :
  feltOf (validateStarknetAddress bech32 input) = Some f ->
  isValid (validateStarknetAddress bech32 input) = true
  /\ (detectAddressFormat input = legacy \/ detectAddressFormat input = public
      \/ detectAddressFormat input = shielded)
  /\ exists digits,
       f = lit "0x" ++ digits /\ length digits = 64%nat
       /\ forallb isHexDigit digits = true
       /\ 0 <= hexNumber digits <= FELT252_MAX.
Proof.
  intros Hf. destruct input as [|c input]; [discriminate|].
  revert Hf. rewrite validateStarknetAddress_switch by discriminate.
  assert (Hlow : forall digits, forallb isLowerHexDigit digits = true ->
                                forallb isHexDigit digits = true).
  { intros digits H. rewrite forallb_forall in *. intros x Hx.
    specialize (H x Hx). revert H.
    unfold isLowerHexDigit, isHexDigit, hexValue.
    destruct ((48 <=? x) && (x <=? 57)); [easy|].
    destruct ((97 <=? x) && (x <=? 102)); easy. }
  assert (Hbech : forall fmt,
             feltOf (validateBech32Address bech32 (c :: input) fmt) = Some f ->
             isValid (validateBech32Address bech32 (c :: input) fmt) = true
             /\ exists digits,
                  f = lit "0x" ++ digits /\ length digits = 64%nat
                  /\ forallb isHexDigit digits = true
                  /\ 0 <= hexNumber digits <= FELT252_MAX).
  { intros fmt H. split.
    - eapply wellShaped_felt; [apply wellShaped_validateBech32Address|exact H].
    - apply validateBech32Address_felt in H as (digits & -> & Hl & Hh & Hb).
      exists digits. repeat split; auto. apply hexNumber_bound. }
  destruct (detectAddressFormat (c :: input)) eqn:Hd; intros Hf.
  - apply detect_legacy in Hd.
    rewrite (proj2 (validateLegacyAddress_verdict _ Hd)) in *.
    destruct (legacyVerdict_felt _ _ Hf) as (-> & Hlen & Hh & Hmax & Hok).
    rewrite Hok. split; [reflexivity|]. split; [now left|].
    exists (padStart (sliceFrom (trim (c :: input)) 2) 64 48).
    split; [reflexivity|]. split; [apply length_padStart; lia|].
    split; [now apply forallb_hex_padStart|].
    unfold padStart. rewrite hexNumber_zeros.
    split; [apply hexNumber_bound|assumption].
  - destruct (Hbech _ Hf) as [Hv Hdig]. auto.
  - destruct (Hbech _ Hf) as [Hv Hdig]. auto 6.
  - exfalso.
    assert (Hv : isValid (validateBech32Address bech32 (c :: input) unified) = true)
      by apply (Hbech _ Hf).
    destruct (validateBech32Address_valid _ _ _ Hv)
      as (words & numbers & v & rest & _ & _ & _ & Hr).
    rewrite Hr, feltOf_validateUnifiedAddress in Hf. discriminate.
  - discriminate.
Qed.

Lemma felt252_is_within_the_field_witness :
  exists digits,
    lit "0x000000000000000000000000000000000000000000000000000000000000001F"
      = lit "0x" ++ digits
    /\ 0 <= hexNumber digits <= FELT252_MAX.
Proof.
  destruct (felt252_is_within_the_field Bech32.library (lit "0x1F")
              (lit "0x000000000000000000000000000000000000000000000000000000000000001F"))
    as (_ & _ & digits & Hd & _ & _ & Hb); [vm_compute; reflexivity|].
  now exists digits.
Defined.

(** *** The same value in the legacy and in the flat encoding *)

(** X5. The flat validator and the legacy validator agree on a value.
    For 32 bytes of data, the flat validation of the data (version 1) and
    the validation of the legacy address [0x] followed by the hexadecimal
    text of the data succeed or fail together and return the same
    [felt252]. More generally, for 1 to 32 bytes whose value is at most
    [FELT252_MAX], the legacy address made of their hexadecimal text
    validates, and its [felt252] is that text zero-padded to 64 digits. *)
Theorem flat_and_legacy_agree bech32 :
  (forall fmt hrp bytes,
      length bytes = 32%nat ->
      isValid (validateSimpleAddress fmt hrp 1 bytes) =
        isValid (validateStarknetAddress bech32 (lit "0x" ++ bytesToHex bytes))
      /\ feltOf (validateSimpleAddress fmt hrp 1 bytes) =
           feltOf (validateStarknetAddress bech32 (lit "0x" ++ bytesToHex bytes)))
  /\ (forall bytes,
        (1 <= length bytes <= 32)%nat ->
        bigEndian bytes <= FELT252_MAX ->
        validateStarknetAddress bech32 (lit "0x" ++ bytesToHex bytes) =
          legacyOk (lit "0x" ++ padStart (bytesToHex bytes) 64 48)).
Proof.
  assert (Hleg : forall bytes, (1 <= length bytes <= 32)%nat ->
            validateStarknetAddress bech32 (lit "0x" ++ bytesToHex bytes) =
              if FELT252_MAX <? bigEndian bytes
              then invalid legacy exceedsFeltMessage
              else legacyOk (lit "0x" ++ padStart (bytesToHex bytes) 64 48)).
  { intros bytes Hl. destruct (bytesToHex_spec bytes) as (_ & Hh & Hn).
    rewrite validateStarknetAddress_0x, validateLegacyAddress_hex, Hn
      by (assumption || rewrite length_bytesToHex; lia).
    reflexivity. }
  split.
  - intros fmt hrp bytes Hl.
    rewrite validateSimpleAddress_cascade, Hleg, Hl by lia. cbn [Z.eqb Pos.eqb negb Nat.eqb].
    rewrite (padStart_full (bytesToHex bytes))
      by (rewrite length_bytesToHex; lia).
    now destruct (FELT252_MAX <? bigEndian bytes).
  - intros bytes Hl Hb. rewrite Hleg by assumption.
    now replace (FELT252_MAX <? bigEndian bytes) with false
      by (symmetry; now apply Z.ltb_ge).
Qed.

Lemma flat_and_legacy_agree_witness :
  feltOf (validateSimpleAddress public (lit "strk") 1 (repeat x2a 32)) =
    feltOf (validateStarknetAddress Bech32.library
              (lit "0x" ++ bytesToHex (repeat x2a 32)))
  /\ validateStarknetAddress Bech32.library (lit "0x" ++ bytesToHex [x01; xff]) =
       legacyOk (lit "0x" ++ padStart (bytesToHex [x01; xff]) 64 48).
Proof.
  split.
  - apply (proj1 (flat_and_legacy_agree Bech32.library)). reflexivity.
  - apply (proj2 (flat_and_legacy_agree Bech32.library)); [cbn; lia|].
    vm_compute. discriminate.
Defined.

(** *** Hexadecimal text determines the bytes *)

Lemma digitChar_injective d e :
  0 <= d < 16 -> 0 <= e < 16 -> digitChar d = digitChar e -> d = e.
Proof.
  intros Hd He H.
  pose proof (proj1 (hexValue_digitChar d Hd)) as H1.
  pose proof (proj1 (hexValue_digitChar e He)) as H2.
  rewrite H in H1. congruence.
Qed.

Lemma byteVal_injective a b : byteVal a = byteVal b -> a = b.
Proof. intros H. now rewrite <- (toUint8_byteVal a), H, toUint8_byteVal. Qed.

(** X6. [bytesToHex] loses nothing: two byte sequences with the same
    hexadecimal text are equal. *)
Theorem bytesToHex_injective a b : bytesToHex a = bytesToHex b -> a = b.
Proof.
  revert b. induction a as [|x a IH]; intros [|y b];
    rewrite ?bytesToHex_cons; try discriminate; [reflexivity|].
  intros [= Hhi Hlo Hrest].
  pose proof (byteVal_range x). pose proof (byteVal_range y).
  apply digitChar_injective in Hhi;
    [|split; [apply Z.div_pos|apply Z.div_lt_upper_bound]; lia ..].
  apply digitChar_injective in Hlo; [|apply Z.mod_pos_bound; lia ..].
  f_equal; [|now apply IH].
  apply byteVal_injective.
  rewrite (Z.div_mod (byteVal x) 16), (Z.div_mod (byteVal y) 16) by lia.
  now rewrite Hhi, Hlo.
Qed.

Lemma bytesToHex_injective_witness : [toUint8 266; toUint8 (-1)] = [x0a; xff].
Proof.
  apply (bytesToHex_injective [toUint8 266; toUint8 (-1)] [x0a; xff]).
  reflexivity.
Defined.

(* ===================================================================== *)
(** ** What a successful unified validation exposes                       *)
(* ===================================================================== *)

Lemma firstn_plus {A} (l : list A) a b :
  firstn (a + b) l = firstn a l ++ firstn b (skipn a l).
Proof.
  revert l. induction a as [|a IH]; intros [|x l]; cbn;
    rewrite ?firstn_nil; try reflexivity.
  now rewrite IH.
Qed.

Lemma skipn_cons_nth {A} (l : list A) n d :
  (n < length l)%nat -> skipn n l = nth n l d :: skipn (S n) l.
Proof.
  revert l. induction n as [|n IH]; intros [|x l] H; cbn in *; try lia;
    [reflexivity|].
  apply IH. lia.
Qed.

(** A round that goes on has read, from its offset to the next one, the
    wire form of the receiver it yields, which is an accepted record. *)
Lemma readRecord_wire bytes offset offset' receiver :
  readRecord bytes offset = inr (offset', receiver) ->
  firstn offset' bytes = firstn offset bytes ++ wireOf receiver
  /\ accepted (toUint8 (type receiver), data receiver) = true
  /\ receiverOf (toUint8 (type receiver), data receiver) = receiver.
Proof.
  unfold readRecord.
  destruct (length bytes <? offset + 2)%nat eqn:H2; [discriminate|].
  destruct (length bytes <? offset + 2 + Z.to_nat (byteAt bytes (offset + 1)))%nat
    eqn:Hfit; [discriminate|].
  destruct (isKnownType (byteAt bytes offset)
            && negb (byteAt bytes (offset + 1) =? 32)) eqn:Hk; [discriminate|].
  intros [= <- <-]. apply Nat.ltb_ge in H2, Hfit.
  set (n := Z.to_nat (byteAt bytes (offset + 1))) in *.
  pose proof (byteVal_range (nth (offset + 1) bytes x00)) as Hn.
  fold (byteAt bytes (offset + 1)) in Hn.
  assert (Hlen : length (sliceBytes bytes (offset + 2) (offset + 2 + n)) = n).
  { unfold sliceBytes. rewrite length_firstn, length_skipn. lia. }
  unfold wireOf, accepted, receiverOf. cbn [type data fst snd].
  rewrite Hlen.
  assert (Ht : toUint8 (byteAt bytes offset) = nth offset bytes x00)
    by apply toUint8_byteVal.
  assert (Hl : toUint8 (Z.of_nat n) = nth (offset + 1) bytes x00).
  { subst n. rewrite Z2Nat.id by lia. apply toUint8_byteVal. }
  rewrite Ht, Hl. fold (byteAt bytes offset). repeat split.
  - unfold sliceBytes.
    replace (offset + 2 + n - (offset + 2))%nat with n by lia.
    replace (offset + 2 + n)%nat with (offset + S (S n))%nat by lia.
    rewrite firstn_plus. f_equal.
    rewrite (skipn_cons_nth bytes offset x00) by lia.
    rewrite (skipn_cons_nth bytes (S offset) x00) by lia.
    cbn [firstn]. replace (S offset) with (offset + 1)%nat by lia.
    now replace (S (offset + 1)) with (offset + 2)%nat by lia.
  - apply andb_true_iff. split; [apply Nat.leb_le; lia|].
    apply andb_false_iff in Hk as [Hk|Hk].
    + now rewrite Hk.
    + apply negb_false_iff, Z.eqb_eq in Hk. apply orb_true_iff. right.
      apply Nat.eqb_eq. lia.
Qed.

(** The receivers the loop ends with, put back on the wire, are the
    payload; each of them is an accepted record with its label. *)
Lemma parseTLV_wire bytes offset receivers out :
  (offset <= length bytes)%nat ->
  concat (map wireOf receivers) = firstn offset bytes ->
  Forall (fun r => accepted (toUint8 (type r), data r) = true
                   /\ receiverOf (toUint8 (type r), data r) = r) receivers ->
  parseTLV bytes offset receivers = inr out ->
  concat (map wireOf out) = bytes
  /\ Forall (fun r => accepted (toUint8 (type r), data r) = true
                      /\ receiverOf (toUint8 (type r), data r) = r) out.
Proof.
  revert out.
  apply (parseTLV_rounds bytes
           (fun offset receivers res => forall out,
                (offset <= length bytes)%nat ->
                concat (map wireOf receivers) = firstn offset bytes ->
                Forall (fun r => accepted (toUint8 (type r), data r) = true
                                 /\ receiverOf (toUint8 (type r), data r) = r)
                  receivers ->
                res = inr out ->
                concat (map wireOf out) = bytes
                /\ Forall (fun r => accepted (toUint8 (type r), data r) = true
                                    /\ receiverOf (toUint8 (type r), data r) = r)
                     out)).
  - intros off rs Hge out Hle Hw Hall [= <-]. split; [|assumption].
    rewrite Hw. apply firstn_all2. lia.
  - discriminate.
  - intros off rs off' rcv Hlt Hr IH out Hle Hw Hall Hout.
    destruct (readRecord_wire _ _ _ _ Hr) as (Hpre & Hacc & Hrcv).
    apply readRecord_next in Hr as (Hoff & _).
    apply IH; try assumption; try lia.
    + rewrite map_app, concat_app, Hw, Hpre. cbn. now rewrite app_nil_r.
    + apply Forall_app. split; [assumption|]. now constructor.
Qed.

(** A valid result of the unified validator, taken apart. *)
Lemma validateUnifiedAddress_valid hrp v bytes :
  isValid (validateUnifiedAddress hrp v bytes) = true ->
  v = 1
  /\ exists recs,
       recs <> [] /\ forallb accepted recs = true /\ bytes = tlvAll recs
       /\ validateUnifiedAddress hrp v bytes =
            valid unified
              {| hrp := Some hrp; version := Some 1; payload := Some bytes;
                 receivers := Some (map receiverOf recs); felt252 := None;
                 checksum := None |}.
Proof.
  unfold validateUnifiedAddress.
  destruct (Z.eqb_spec v 1) as [->|]; [|discriminate]. cbn [negb].
  destruct (parseTLV bytes 0 []) as [result|out] eqn:E.
  { apply parseTLV_invalid in E as [e ->]. discriminate. }
  destruct out as [|r out]; [discriminate|]. intros _. split; [reflexivity|].
  destruct (parseTLV_wire bytes 0 [] (r :: out)) as [Hw Hall];
    [lia|reflexivity|constructor|assumption|].
  exists (map (fun r => (toUint8 (type r), data r)) (r :: out)).
  split; [discriminate|].
  split; [|split].
  - rewrite forallb_forall. intros rec [x [<- Hx]]%in_map_iff.
    rewrite Forall_forall in Hall. now apply Hall.
  - rewrite <- Hw. unfold tlvAll. now rewrite map_map.
  - cbn [length Nat.eqb]. do 3 f_equal.
    rewrite map_map. symmetry.
    etransitivity; [|apply map_id].
    apply map_ext_in. intros x Hx. rewrite Forall_forall in Hall.
    now apply Hall.
Qed.

(** X7. The receivers of a valid unified address are a faithful cut of
    its payload: there is at least one; put back on the wire in their
    order (type byte, length byte, value) they give the payload again,
    byte for byte, so no byte is skipped or read twice; every type is a
    byte, every label is the one of the type, and a receiver of a known
    type has exactly 32 bytes. The result carries the payload and the
    prefix it was given. *)
Theorem unified_receivers_cover_the_payload hrp v bytes :
  isValid (validateUnifiedAddress hrp v bytes) = true ->
  exists receivers,
    validateUnifiedAddress hrp v bytes =
      valid unified
        {| hrp := Some hrp; version := Some 1; payload := Some bytes;
           receivers := Some receivers; felt252 := None; checksum := None |}
    /\ receivers <> []
    /\ concat (map wireOf receivers) = bytes
    /\ Forall (fun r =>
                 0 <= type r <= 255
                 /\ description r = Some (describeType (type r))
                 /\ (length (data r) <= 255)%nat
                 /\ (isKnownType (type r) = true -> length (data r) = 32%nat))
         receivers.
Proof.
  intros Hvalid.
  destruct (validateUnifiedAddress_valid _ _ _ Hvalid)
    as (_ & recs & Hne & Hacc & -> & Hr).
  exists (map receiverOf recs). split; [exact Hr|].
  split; [destruct recs; [contradiction|discriminate]|].
  split.
  - unfold tlvAll. rewrite map_map. f_equal. apply map_ext.
    intros [t x]. unfold wireOf, receiverOf, tlv. cbn [type data fst snd].
    now rewrite toUint8_byteVal.
  - apply Forall_forall. intros r [[t x] [<- Hin]]%in_map_iff.
    rewrite forallb_forall in Hacc. specialize (Hacc _ Hin).
    unfold accepted in Hacc. cbn [fst snd] in Hacc.
    apply andb_true_iff in Hacc as [Hlen Hk]. apply Nat.leb_le in Hlen.
    unfold receiverOf. cbn [type data description fst snd].
    repeat split; try apply byteVal_range; try assumption.
    intros Hknown. rewrite Hknown in Hk. now apply Nat.eqb_eq in Hk.
Qed.

Lemma unified_receivers_cover_the_payload_witness :
  exists receivers,
    receiversOf (validateUnifiedAddress (lit "strku") 1
                   [x05; x02; xaa; xbb; x09; x00]) = Some receivers
    /\ concat (map wireOf receivers) = [x05; x02; xaa; xbb; x09; x00].
Proof.
  destruct (unified_receivers_cover_the_payload (lit "strku") 1
              [x05; x02; xaa; xbb; x09; x00])
    as (receivers & Hr & _ & Hw & _); [vm_compute; reflexivity|].
  exists receivers. split; [now rewrite Hr|exact Hw].
Defined.

(** X8. The valid unified payloads are exactly the concatenations of
    one or more accepted records, an accepted record being a type byte, a
    length byte and that many bytes of value, 32 of them if the type is one
    of the two known ones; the receivers are then the records in order. *)
Theorem unified_valid_iff_accepted_records hrp bytes :
  isValid (validateUnifiedAddress hrp 1 bytes) = true <->
  exists recs,
    recs <> [] /\ forallb accepted recs = true /\ bytes = tlvAll recs
    /\ receiversOf (validateUnifiedAddress hrp 1 bytes) =
         Some (map receiverOf recs).
Proof.
  split.
  - intros Hvalid.
    destruct (validateUnifiedAddress_valid _ _ _ Hvalid)
      as (_ & recs & Hne & Hacc & Hb & Hr).
    exists recs. repeat split; try assumption. now rewrite Hr.
  - intros (recs & Hne & Hacc & -> & _).
    now rewrite validateUnified_records.
Qed.

(** X9. Behind any run of accepted records, one byte left over, too few
    for a record header, makes the validation fail with [Incomplete TLV
    record: missing type or length]. *)
Theorem unified_trailing_byte hrp before t :
  forallb accepted before = true ->
  validateUnifiedAddress hrp 1 (tlvAll before ++ [t]) =
    invalid unified (lit "Incomplete TLV record: missing type or length").
Proof.
  intros Hacc. apply validateUnified_returns; [assumption|discriminate|].
  apply readRecord_header.
Qed.

Lemma unified_trailing_byte_witness :
  validateUnifiedAddress (lit "strku") 1 [x05; x01; xaa; x00] =
    invalid unified (lit "Incomplete TLV record: missing type or length").
Proof.
  exact (unified_trailing_byte (lit "strku") [(x05, [xaa])] x00 eq_refl).
Defined.

(** X17. The unified validator puts no bound on the value of a
    receiver: a public-key record of 32 bytes is accepted whatever the
    bytes, also when their value exceeds [FELT252_MAX] and the flat
    validator refuses the same 32 bytes. *)
Theorem unified_receiver_value_is_not_bounded hrp hrp' fmt value :
  length value = 32%nat ->
  validateUnifiedAddress hrp 1 (x00 :: x20 :: value) =
    valid unified
      {| hrp := Some hrp; version := Some 1;
         payload := Some (x00 :: x20 :: value);
         receivers :=
           Some [mkReceiver 0 value (Some (lit "Public key receiver"))];
         felt252 := None; checksum := None |}
  /\ (FELT252_MAX < bigEndian value ->
      validateSimpleAddress fmt hrp' 1 value =
        invalid fmt (lit "Address exceeds felt252 maximum value (2^251 - 1)")).
Proof.
  intros Hl. split.
  - pose proof (validateUnified_records hrp [(x00, value)]) as H.
    unfold tlvAll, tlv, accepted in H. cbn [map concat fst snd forallb] in H.
    rewrite app_nil_r, Hl in H. apply H; [reflexivity|discriminate].
  - intros Hb. rewrite validateSimpleAddress_cascade, Hl.
    cbn [Z.eqb Pos.eqb negb Nat.eqb].
    now replace (FELT252_MAX <? bigEndian value) with true
      by (symmetry; now apply Z.ltb_lt).
Qed.

Lemma unified_receiver_value_is_not_bounded_witness :
  isValid (validateUnifiedAddress (lit "strku") 1 (x00 :: x20 :: repeat xff 32))
    = true
  /\ isValid (validateSimpleAddress public (lit "strk") 1 (repeat xff 32)) = false.
Proof.
  destruct (unified_receiver_value_is_not_bounded (lit "strku") (lit "strk")
              public (repeat xff 32) eq_refl) as [Hu Hs].
  split; [now rewrite Hu|]. rewrite Hs; [reflexivity|]. vm_compute. reflexivity.
Defined.

(* ===================================================================== *)
(** ** The generator, format by format                                    *)
(* ===================================================================== *)

Lemma randomHex_lower rs :
  Forall (fun r => (0 <= r)%Q /\ (r < 1)%Q) rs ->
  forallb isLowerHexDigit (concat (map randomHex rs)) = true.
Proof.
  induction 1 as [|r rs [H0 H1] _ IH]; [reflexivity|].
  cbn [map concat]. rewrite randomHex_unit by assumption.
  pose proof (Qfloor_unit r 16 H0 H1 eq_refl) as Hd.
  change (inject_Z 16) with 16%Q in Hd.
  cbn [app forallb]. now rewrite (proj2 (hexValue_digitChar _ Hd)), IH.
Qed.

(** What the legacy loop returns: [0x0] and 63 lower-case digits, of a
    value within the bound. *)
Lemma legacyLoop_shape random fuel : forall pos address,
  (forall i, (0 <= random i)%Q /\ (random i < 1)%Q) ->
  legacyLoop random fuel pos = Some (inr address) ->
  exists digits,
    address = lit "0x0" ++ digits
    /\ length digits = 63%nat
    /\ forallb isLowerHexDigit digits = true
    /\ forallb isHexDigit (48 :: digits) = true
    /\ hexNumber (48 :: digits) <= FELT252_MAX.
Proof.
  induction fuel as [|fuel IH]; intros pos address Hr; [discriminate|].
  cbn [legacyLoop].
  destruct (legacy_round random pos Hr) as [Hl Hh].
  assert (Hlow : forallb isLowerHexDigit
                   (sliceFrom (concat (map randomHex (draws random pos 64))) 1)
                 = true).
  { apply forallb_skipn, randomHex_lower. unfold draws.
    apply Forall_forall. intros r [i [<- _]]%in_map_iff. apply Hr. }
  set (digits := sliceFrom _ 1) in *.
  change (lit "0" ++ digits) with (48 :: digits) in *.
  rewrite BigInt_hex by (assumption || discriminate).
  destruct (FELT252_MAX <? hexNumber (48 :: digits)) eqn:Hbound;
    [now apply IH|].
  intros [= <-]. exists digits. apply Z.ltb_ge in Hbound.
  cbn [length] in Hl. repeat split; try assumption. lia.
Qed.

(** X13. Whatever the draws of [Math.random], an address returned by
    the legacy generator has 66 characters, [0x0] followed by 63
    lower-case hexadecimal digits, is detected as legacy, validates, and
    is its own [felt252]. *)
Theorem legacy_generator_is_canonical bech32 random fuel address :
  (forall i, (0 <= random i)%Q /\ (random i < 1)%Q) ->
  generateTestVector bech32 random fuel legacy = Some (inr address) ->
  length address = 66%nat
  /\ startsWith address (lit "0x0") = true
  /\ isLowerFelt address = true
  /\ detectAddressFormat address = legacy
  /\ validateStarknetAddress bech32 address = legacyOk address.
Proof.
  intros Hr Hg. cbn [generateTestVector] in Hg.
  destruct (legacyLoop_shape _ _ _ _ Hr Hg) as (digits & -> & Hl & Hlow & Hh & Hb).
  change (lit "0x0" ++ digits) with (lit "0x" ++ 48 :: digits).
  split; [cbn [length app lit map list_ascii_of_string]; cbn; lia|].
  split; [reflexivity|].
  split.
  { unfold isLowerFelt. rewrite startsWith_app.
    change (sliceFrom (lit "0x" ++ ?x) 2) with x. cbn [length forallb].
    rewrite Hl, Hlow. reflexivity. }
  split; [now apply detect_0x|].
  rewrite validateStarknetAddress_0x, validateLegacyAddress_hex
    by (assumption || cbn [length]; lia).
  replace (FELT252_MAX <? hexNumber (48 :: digits)) with false
    by (symmetry; now apply Z.ltb_ge).
  now rewrite padStart_full by (cbn [length]; lia).
Qed.

Lemma legacy_generator_is_canonical_witness :
  validateStarknetAddress Bech32.library
    (lit "0x0555555555555555555555555555555555555555555555555555555555555555")
  = legacyOk
      (lit "0x0555555555555555555555555555555555555555555555555555555555555555").
Proof.
  refine (proj2 (proj2 (proj2 (proj2
            (legacy_generator_is_canonical Bech32.library (fun _ => 1 # 3) 1 _
               _ _))))).
  - intros i. split; [unfold Qle|unfold Qlt]; cbn; lia.
  - vm_compute. reflexivity.
Defined.

(** More fuel does not change what the loop returns. *)
Lemma legacyLoop_more_fuel random fuel : forall fuel' pos outcome,
  legacyLoop random fuel pos = Some outcome ->
  (fuel <= fuel')%nat ->
  legacyLoop random fuel' pos = Some outcome.
Proof.
  induction fuel as [|fuel IH]; intros fuel' pos outcome; [discriminate|].
  destruct fuel' as [|fuel']; [lia|]. cbn [legacyLoop].
  destruct (BigInt _) as [value|]; [|easy].
  destruct (FELT252_MAX <? value); [|easy].
  intros H Hle. apply IH; [assumption|lia].
Qed.

Lemma legacyLoop_no_throw random fuel : forall pos e,
  (forall i, (0 <= random i)%Q /\ (random i < 1)%Q) ->
  legacyLoop random fuel pos <> Some (inl e).
Proof.
  induction fuel as [|fuel IH]; intros pos e Hr; [discriminate|].
  cbn [legacyLoop].
  destruct (legacy_round random pos Hr) as [Hl Hh].
  set (hexAddr := lit "0" ++ _) in *.
  rewrite BigInt_hex by (assumption || now destruct hexAddr).
  destruct (FELT252_MAX <? hexNumber hexAddr); [now apply IH|discriminate].
Qed.

(** X14. The rejection loop of the legacy generator, for draws of the
    unit interval: it never throws; it returns as soon as a round draws a
    second digit below 8 (a second draw below one half), so [k + 1] rounds
    of fuel are enough when round [k] does; and once it returns, more fuel
    returns the same address. *)
Theorem legacy_generator_returns bech32 random :
  (forall i, (0 <= random i)%Q /\ (random i < 1)%Q) ->
  (forall fuel e,
      generateTestVector bech32 random fuel legacy <> Some (inl e))
  /\ (forall k fuel,
        (random (64 * k + 1)%nat < 1 # 2)%Q -> (k < fuel)%nat ->
        exists address,
          generateTestVector bech32 random fuel legacy = Some (inr address))
  /\ (forall fuel fuel' outcome,
        generateTestVector bech32 random fuel legacy = Some outcome ->
        (fuel <= fuel')%nat ->
        generateTestVector bech32 random fuel' legacy = Some outcome).
Proof.
  intros Hr. cbn [generateTestVector]. split; [|split].
  - intros fuel e. now apply legacyLoop_no_throw.
  - intros k fuel Hhalf Hfuel.
    now apply (legacyLoop_returns random k fuel 0%nat).
  - intros fuel fuel' outcome. apply legacyLoop_more_fuel.
Qed.

(** Draws that alternate [3/4] and [1/4]: every round draws the second
    digit [4]. *)
Lemma legacy_generator_returns_witness :
  exists address,
    generateTestVector Bech32.library
      (fun i => if Nat.even i then 3 # 4 else 1 # 4) 1 legacy
    = Some (inr address).
Proof.
  refine (proj1 (proj2 (legacy_generator_returns Bech32.library
            (fun i => if Nat.even i then 3 # 4 else 1 # 4) _)) 0%nat 1%nat _ _).
  - intros i. destruct (Nat.even i); (split; [unfold Qle|unfold Qlt]); cbn; lia.
  - reflexivity.
  - lia.
Defined.





(* ===================================================================== *)
(** ** The step-by-step validator                                         *)
(* ===================================================================== *)

Section Steps.

Import StepByStepValidator.

(** Runs the [switch] of [runValidationStep] for a step whose [id] is
    given by [H]. *)
Ltac run_step step H :=
  let i := fresh "i" in
  destruct step as [i ? ? ? ? ? ?]; cbn [id] in H; subst i;
  unfold runValidationStep; cbn [id title description];
  repeat match goal with
         | |- context [streq ?a ?b] =>
             let v := eval vm_compute in (streq a b) in
             replace (streq a b) with v by (vm_compute; reflexivity)
         end;
  cbv iota.

(** Decides the [includes] tests on literals. *)
Ltac run_includes :=
  repeat match goal with
         | |- context [includes ?a ?b] =>
             let v := eval vm_compute in (includes a b) in
             replace (includes a b) with v by (vm_compute; reflexivity)
         end.

Lemma count_text_last (n : jsstring) (tail other : jsstring) c d :
  hd_error (rev tail) = Some c -> hd_error (rev other) = Some d -> c <> d ->
  Some (n ++ tail) <> Some other.
Proof.
  intros Hc Hd Hne [= H]. apply (f_equal (@rev Z)) in H.
  rewrite rev_app_distr in H.
  destruct (rev tail) as [|c' t]; [discriminate|]. injection Hc as ->.
  rewrite <- H in Hd. cbn in Hd. congruence.
Qed.

Lemma runValidationStep_format_detection bech32 t0 t1 step input :
  id step = lit "format-detection" ->
  handledOutcome t0 t1 step (runValidationStep bech32 t0 t1 step input).
Proof.
  intros H. run_step step H. unfold handledOutcome. cbn.
  repeat split; try discriminate.
  - destruct (detectAddressFormat input); auto.
  - destruct (detectAddressFormat input); vm_compute; discriminate.
  - destruct (detectAddressFormat input); vm_compute; discriminate.
Qed.

Lemma runValidationStep_structure bech32 t0 t1 step input :
  id step = lit "structure-validation" ->
  handledOutcome t0 t1 step (runValidationStep bech32 t0 t1 step input).
Proof.
  intros H. run_step step H. unfold handledOutcome.
  destruct (structureCheck input) as [[|] text]; cbn;
    repeat split; auto; discriminate.
Qed.

Lemma runValidationStep_checksum bech32 t0 t1 step input :
  id step = lit "checksum-verification" ->
  detectAddressFormat input <> legacy ->
  detectAddressFormat input <> unknown ->
  handledOutcome t0 t1 step (runValidationStep bech32 t0 t1 step input).
Proof.
  intros H Hl Hu. run_step step H. unfold handledOutcome.
  destruct (detectAddressFormat input); try contradiction;
    destruct (8 <? length input)%nat; cbn; repeat split; auto; discriminate.
Qed.

Lemma runValidationStep_felt bech32 t0 t1 step input :
  id step = lit "felt252-constraint" ->
  handledOutcome t0 t1 step (runValidationStep bech32 t0 t1 step input).
Proof.
  intros H. run_step step H. unfold handledOutcome.
  destruct (error (validateStarknetAddress bech32 input)) as [e|];
    [destruct (includes e _)|]; cbn; repeat split; auto; discriminate.
Qed.

Lemma runValidationStep_tlv bech32 t0 t1 step input :
  id step = lit "tlv-parsing" ->
  handledOutcome t0 t1 step (runValidationStep bech32 t0 t1 step input).
Proof.
  intros H. run_step step H. unfold handledOutcome.
  destruct (isValid (validateStarknetAddress bech32 input));
    [destruct (receiversOf (validateStarknetAddress bech32 input)) as [rs|]|];
    cbn [id title description status result details duration];
    repeat split; auto; try discriminate.
  - apply count_text_last with (c := 83) (d := 80); [reflexivity..|lia].
  - apply count_text_last with (c := 83) (d := 82); [reflexivity..|lia].
Qed.

Lemma runValidationStep_final bech32 t0 t1 step input :
  id step = lit "final-validation" ->
  handledOutcome t0 t1 step (runValidationStep bech32 t0 t1 step input).
Proof.
  intros H. run_step step H. unfold handledOutcome.
  destruct (isValid (validateStarknetAddress bech32 input)); cbn;
    repeat split; auto; discriminate.
Qed.

(** X18. The list of steps laid out for an address and the runner of one
    step fit together. The list is, in this order: format detection,
    structure validation, checksum verification (only when the detected
    format is one of the three Bech32 ones), felt252 constraint, TLV
    parsing (only when it is unified) and final validation; every step
    starts pending and empty. Running any step of the list keeps its id,
    title and description, ends in success or error, and sets a result, a
    text of details and the elapsed time; the result is never
    [UNKNOWN STEP] nor [ERROR]: the runner knows every id of the list, and
    the checksum step, which ends in [ERROR] for a format without
    checksum, is laid out only for the formats that have one. *)
Theorem every_step_is_handled bech32 startTime finishTime input :
  let steps := initializeSteps input in
  map id steps =
    [lit "format-detection"; lit "structure-validation"]
      ++ match detectAddressFormat input with
         | legacy | unknown => []
         | _ => [lit "checksum-verification"]
         end
      ++ [lit "felt252-constraint"]
      ++ match detectAddressFormat input with
         | unified => [lit "tlv-parsing"]
         | _ => []
         end
      ++ [lit "final-validation"]
  /\ Forall (fun step =>
       status step = StatusPending /\ result step = None
       /\ details step = None /\ duration step = None) steps
  /\ Forall (fun step =>
       handledOutcome startTime finishTime step
         (runValidationStep bech32 startTime finishTime step input)) steps.
Proof.
  cbv zeta. unfold initializeSteps.
  assert (Hrun : forall step,
            In (id step)
              [lit "format-detection"; lit "structure-validation";
               lit "felt252-constraint"; lit "tlv-parsing";
               lit "final-validation"]
            \/ (id step = lit "checksum-verification"
                /\ detectAddressFormat input <> legacy
                /\ detectAddressFormat input <> unknown) ->
            handledOutcome startTime finishTime step
              (runValidationStep bech32 startTime finishTime step input)).
  { intros step [[H|[H|[H|[H|[H|[]]]]]]|(H & Hl & Hu)].
    - now apply runValidationStep_format_detection.
    - now apply runValidationStep_structure.
    - now apply runValidationStep_felt.
    - now apply runValidationStep_tlv.
    - now apply runValidationStep_final.
    - now apply runValidationStep_checksum. }
  destruct (detectAddressFormat input) eqn:Hf; cbn [app map];
    (split; [reflexivity|split]);
    repeat (apply Forall_cons; [|]); try apply Forall_nil;
    try (now repeat split);
    apply Hrun; cbn [id pendingStep];
    first [ right; split; [reflexivity|split; discriminate]
          | left; cbn [In]; tauto ].
Qed.


(** The felt252 step fails exactly when the result carries an error text
    that contains [exceeds felt252 maximum]. *)
Lemma runValidationStep_felt_status bech32 t0 t1 step input :
  id step = lit "felt252-constraint" ->
  status (runValidationStep bech32 t0 t1 step input) =
    match error (validateStarknetAddress bech32 input) with
    | Some e =>
        if includes e (lit "exceeds felt252 maximum") then StatusError
        else StatusSuccess
    | None => StatusSuccess
    end.
Proof.
  intros H. run_step step H.
  destruct (error (validateStarknetAddress bech32 input)) as [e|];
    [destruct (includes e _)|]; reflexivity.
Qed.

(** X19. The felt252 step of the step-by-step view never fails for an
    address that validates. For an input detected as legacy it fails
    exactly when the characters [h] after [0x] are 1 to 64 hexadecimal
    digits whose value is above [FELT252_MAX]; on every other legacy
    input, one that fails validation for another reason included, the
    step succeeds. *)
Theorem felt252_step_verdict bech32 startTime finishTime step input :
  id step = lit "felt252-constraint" ->
  let updated := runValidationStep bech32 startTime finishTime step input in
  (status updated = StatusError ->
   isValid (validateStarknetAddress bech32 input) = false)
  /\ (detectAddressFormat input = legacy ->
      let h := sliceFrom (trim input) 2 in
      (status updated = StatusError <->
         h <> [] /\ forallb isHexDigit h = true /\ (length h <= 64)%nat
         /\ FELT252_MAX < hexNumber h)
      /\ (status updated <> StatusError -> status updated = StatusSuccess)).
Proof.
  intros Hid. cbv zeta. rewrite (runValidationStep_felt_status _ _ _ _ _ Hid).
  split.
  - destruct (wellShaped_validateStarknetAddress bech32 input)
      as [(Hv & _)|(_ & -> & _)]; [intros _; exact Hv|discriminate].
  - intros Hf. rewrite (validateStarknetAddress_legacy _ _ Hf).
    unfold legacyVerdict.
    destruct (sliceFrom (trim input) 2) as [|c h] eqn:Hh.
    { cbn [error invalid]. run_includes. cbv iota. split; [|reflexivity].
      split; [discriminate|]. now intros []. }
    destruct (forallb isHexDigit (c :: h)); cbn [negb].
    2:{ cbn [error invalid]. run_includes. cbv iota. split; [|reflexivity].
        split; [discriminate|]. now intros (_ & ? & _). }
    destruct (Nat.ltb_spec 64 (length (c :: h))).
    { cbn [error invalid]. run_includes. cbv iota. split; [|reflexivity].
      split; [discriminate|]. intros (_ & _ & ? & _). lia. }
    destruct (Z.ltb_spec FELT252_MAX (hexNumber (c :: h))).
    + cbn [error invalid]. run_includes. cbv iota. split; [|contradiction].
      split; [|reflexivity]. intros _. repeat split; (discriminate || lia).
    + cbn [error valid]. split; [|reflexivity].
      split; [discriminate|]. intros (_ & _ & _ & ?). lia.
Qed.

Lemma felt252_step_verdict_witness :
  status
    (runValidationStep Bech32.library 10 13
       (pendingStep (lit "felt252-constraint") (lit "Felt252 Constraint Check")
          []) (lit "0x0zz")) = StatusSuccess.
Proof.
  destruct (felt252_step_verdict Bech32.library 10 13
              (pendingStep (lit "felt252-constraint")
                 (lit "Felt252 Constraint Check") [])
              (lit "0x0zz") eq_refl) as (_ & H).
  destruct (H eq_refl) as (Hiff & Hrest).
  apply Hrest. intros He. apply Hiff in He. destruct He as (_ & He & _).
  vm_compute in He. discriminate.
Defined.


Lemma structureCheck_legacy input :
  detectAddressFormat input = legacy ->
  fst (structureCheck input) =
    startsWith input (lit "0x") && forallb isHexDigit (skipn 2 input)
    && (length input <=? 66)%nat.
Proof.
  intros Hf. unfold structureCheck. rewrite Hf.
  apply detect_legacy in Hf. apply startsWith_inv in Hf.
  destruct (trim input) as [|c t]; [discriminate|].
  unfold test_0x_hex.
  destruct (startsWith input (lit "0x")); [|reflexivity].
  destruct (forallb isHexDigit (skipn 2 input)); [|reflexivity].
  cbn [negb andb]. rewrite Nat.leb_antisym.
  now destruct (66 <? length input)%nat.
Qed.

Lemma runValidationStep_structure_status bech32 t0 t1 step input :
  id step = lit "structure-validation" ->
  status (runValidationStep bech32 t0 t1 step input) =
    if fst (structureCheck input) then StatusSuccess else StatusError.
Proof.
  intros H. run_step step H. now destruct (structureCheck input) as [[|] text].
Qed.

(** X20. The structure step on an input detected as legacy looks at the
    input as typed, not at the trimmed one: it succeeds exactly when the
    input is [0x] followed by at most 64 hexadecimal digits, and fails
    otherwise. So, when it succeeds, the validation can fail for two
    reasons only, no digit after [0x] or a value above [FELT252_MAX]; and
    an address that validates passes the step exactly when it is typed
    without white space around it. *)
Theorem structure_step_on_legacy bech32 startTime finishTime step input :
  id step = lit "structure-validation" ->
  detectAddressFormat input = legacy ->
  let updated := runValidationStep bech32 startTime finishTime step input in
  let result := validateStarknetAddress bech32 input in
  (status updated = StatusSuccess <->
     exists h, input = lit "0x" ++ h /\ forallb isHexDigit h = true
               /\ (length h <= 64)%nat)
  /\ (status updated <> StatusSuccess -> status updated = StatusError)
  /\ (status updated = StatusSuccess -> isValid result = false ->
      result = invalid legacy (lit "Address cannot be empty after 0x")
      \/ result = invalid legacy exceedsFeltMessage)
  /\ (isValid result = true ->
      (status updated = StatusSuccess <-> trim input = input)).
Proof.
  intros Hid Hf. cbv zeta.
  rewrite (runValidationStep_structure_status _ _ _ _ _ Hid).
  rewrite (structureCheck_legacy _ Hf).
  rewrite (validateStarknetAddress_legacy _ _ Hf).
  assert (Hpass :
    (if startsWith input (lit "0x") && forallb isHexDigit (skipn 2 input)
        && (length input <=? 66)%nat
     then StatusSuccess else StatusError) = StatusSuccess <->
    exists h, input = lit "0x" ++ h /\ forallb isHexDigit h = true
              /\ (length h <= 64)%nat).
  { split.
    - destruct (startsWith input (lit "0x")) eqn:Hp; [|discriminate].
      destruct (forallb isHexDigit (skipn 2 input)) eqn:Hh; [|discriminate].
      destruct (Nat.leb_spec (length input) 66); [|discriminate].
      intros _. apply startsWith_inv in Hp. exists (skipn 2 input).
      repeat split; try assumption.
      rewrite Hp in H. rewrite length_app in H. cbn in H. cbn. lia.
    - intros (h & -> & Hh & Hl). rewrite startsWith_app.
      change (skipn 2 (lit "0x" ++ h)) with h. rewrite Hh.
      rewrite length_app. cbn [length lit andb map]. cbn.
      now destruct (Nat.leb_spec (length h) 64); [|lia]. }
  split; [exact Hpass|]. split.
  { now destruct (_ && _ && _). }
  split.
  - intros (h & -> & Hh & Hl)%Hpass. rewrite (trim_0x_hex _ Hh).
    change (sliceFrom (lit "0x" ++ h) 2) with h.
    unfold legacyVerdict. destruct h as [|c h]; [now left|].
    rewrite Hh. cbn [negb].
    destruct (Nat.ltb_spec 64 (length (c :: h))); [lia|].
    destruct (FELT252_MAX <? hexNumber (c :: h)); [now right|discriminate].
  - intros Hv. rewrite Hpass. split.
    + intros (h & -> & Hh & _). now apply trim_0x_hex.
    + intros Ht. apply detect_legacy, startsWith_inv in Hf.
      rewrite Ht in Hf, Hv. change (sliceFrom input 2) with (skipn 2 input) in Hv.
      exists (skipn 2 input). split; [exact Hf|].
      revert Hv. unfold legacyVerdict.
      destruct (skipn 2 input) as [|c h]; [discriminate|].
      destruct (forallb isHexDigit (c :: h)); [|discriminate]. cbn [negb].
      destruct (Nat.ltb_spec 64 (length (c :: h))); [discriminate|].
      intros _. split; [reflexivity|assumption].
Qed.

Lemma structure_step_on_legacy_witness :
  status
    (runValidationStep Bech32.library 10 13
       (pendingStep (lit "structure-validation") (lit "Structure Validation") [])
       (lit " 0x1f")) = StatusError.
Proof.
  destruct (structure_step_on_legacy Bech32.library 10 13
              (pendingStep (lit "structure-validation")
                 (lit "Structure Validation") [])
              (lit " 0x1f") eq_refl eq_refl) as (_ & Hrest & _ & Hvalid).
  apply Hrest. intros Hs. apply (Hvalid eq_refl) in Hs. discriminate.
Defined.

(** The receivers of a successful validation: there are some exactly
    when the input was detected as unified, and then at least one. *)
Lemma receiversOf_valid bech32 input :
  isValid (validateStarknetAddress bech32 input) = true ->
  match receiversOf (validateStarknetAddress bech32 input) with
  | Some receivers => detectAddressFormat input = unified /\ receivers <> []
  | None => detectAddressFormat input <> unified
  end.
Proof.
  destruct input as [|c input]; [discriminate|].
  rewrite validateStarknetAddress_switch by discriminate.
  destruct (detectAddressFormat (c :: input)) eqn:Hf.
  - apply detect_legacy in Hf.
    rewrite (proj2 (validateLegacyAddress_verdict _ Hf)).
    unfold legacyVerdict. destruct (sliceFrom _ 2); [discriminate|].
    repeat match goal with
           | |- context [if ?b then _ else _] => destruct b
           end; (discriminate || (intros _; cbn; discriminate)).
  - intros Hv.
    destruct (validateBech32Address_valid _ _ _ Hv)
      as (words & numbers & v & rest & _ & _ & _ & Hr).
    rewrite Hr in *.
    destruct (validateSimpleAddress_valid _ _ _ _ Hv) as (_ & _ & _ & ->).
    cbn. discriminate.
  - intros Hv.
    destruct (validateBech32Address_valid _ _ _ Hv)
      as (words & numbers & v & rest & _ & _ & _ & Hr).
    rewrite Hr in *.
    destruct (validateSimpleAddress_valid _ _ _ _ Hv) as (_ & _ & _ & ->).
    cbn. discriminate.
  - intros Hv.
    destruct (validateBech32Address_valid _ _ _ Hv)
      as (words & numbers & v & rest & _ & _ & _ & Hr).
    rewrite Hr in *.
    destruct (validateUnifiedAddress_valid _ _ _ Hv)
      as (_ & recs & Hne & _ & _ & ->).
    cbn. split; [reflexivity|]. now destruct recs.
  - discriminate.
Qed.

(** X22. The TLV step of the step-by-step view succeeds exactly when the
    validation succeeds on an input detected as unified. For such an
    input it therefore ends as the final step does. When it succeeds the
    result carries at least one receiver and the step shows their number
    followed by [RECEIVERS]; otherwise it shows [PARSE FAILED]. *)
Theorem tlv_step_agrees_with_validation bech32 startTime finishTime
  step final input :
  id step = lit "tlv-parsing" ->
  id final = lit "final-validation" ->
  let result := validateStarknetAddress bech32 input in
  let updated := runValidationStep bech32 startTime finishTime step input in
  (status updated = StatusSuccess <->
     isValid result = true /\ detectAddressFormat input = unified)
  /\ (detectAddressFormat input = unified ->
      status updated =
        status (runValidationStep bech32 startTime finishTime final input))
  /\ (status updated = StatusSuccess ->
      exists receivers,
        receiversOf result = Some receivers /\ receivers <> []
        /\ StepByStepValidator.result updated =
             Some (toString (Z.of_nat (length receivers)) ++ lit " RECEIVERS"))
  /\ (status updated <> StatusSuccess ->
      status updated = StatusError
      /\ StepByStepValidator.result updated = Some (lit "PARSE FAILED")).
Proof.
  intros Hid Hfinal. cbv zeta.
  pose proof (receiversOf_valid bech32 input) as Hrs.
  run_step step Hid. run_step final Hfinal.
  destruct (isValid (validateStarknetAddress bech32 input)).
  - specialize (Hrs eq_refl).
    destruct (receiversOf (validateStarknetAddress bech32 input)) as [rs|];
      cbn [status result].
    + destruct Hrs as [Hu Hne]. repeat split; try easy; eauto.
    + repeat split; try easy; now intros [_ ?].
  - cbn [status result]. repeat split; try easy; now intros [? _].
Qed.

Lemma tlv_step_agrees_with_validation_witness :
  status
    (runValidationStep Bech32.library 10 13
       (pendingStep (lit "tlv-parsing") (lit "TLV Structure Parsing") [])
       (lit "0x1f")) = StatusError.
Proof.
  destruct (tlv_step_agrees_with_validation Bech32.library 10 13
              (pendingStep (lit "tlv-parsing") (lit "TLV Structure Parsing") [])
              (pendingStep (lit "final-validation") (lit "Final validation") [])
              (lit "0x1f") eq_refl eq_refl) as (Hiff & _ & _ & Hrest).
  apply Hrest. intros [_ Hu]%Hiff. discriminate.
Defined.


(** What trimming removes at the end comes after the trimmed text. *)
Lemma trim_prefix s : exists w, trimStart s = trim s ++ w.
Proof.
  unfold trim, trimEnd. set (t := trimStart s).
  destruct (trimStart_split (rev t)) as (p & Ht & _).
  apply (f_equal (@rev Z)) in Ht. rewrite rev_involutive, rev_app_distr in Ht.
  now exists (rev p).
Qed.

Lemma startsWith_more s w p :
  startsWith s p = true -> startsWith (s ++ w) p = true.
Proof.
  intros H. apply startsWith_inv in H. rewrite H, <- app_assoc.
  apply startsWith_app.
Qed.

Lemma structureCheck_bech32 input :
  detectAddressFormat input <> legacy ->
  detectAddressFormat input <> unknown ->
  structureCheck input =
    let prefix := expectedPrefixes (detectAddressFormat input) in
    if startsWith input prefix then
      (true,
       lit "Valid " ++ tagOf (detectAddressFormat input)
         ++ lit " structure with " ++ prefix ++ lit " prefix")
    else (false, lit "Missing " ++ prefix ++ lit " prefix").
Proof.
  intros Hl Hu. unfold structureCheck.
  destruct (trim input) as [|c t] eqn:Ht.
  { exfalso. apply Hu. unfold detectAddressFormat. now rewrite Ht. }
  cbv zeta.
  destruct (detectAddressFormat input); try contradiction;
    now destruct (startsWith input _).
Qed.

(** X21. The structure step on an input detected as public, shielded or
    unified checks one thing only: it succeeds exactly when the input as
    typed has no white space in front. What follows the prefix plays no
    part, so the step also succeeds on inputs that the validation
    rejects; and an address that validates fails the step, with the text
    [Missing <prefix> prefix], as soon as a space is typed before it. *)
Theorem structure_step_on_bech32 bech32 startTime finishTime step input :
  id step = lit "structure-validation" ->
  detectAddressFormat input <> legacy ->
  detectAddressFormat input <> unknown ->
  let updated := runValidationStep bech32 startTime finishTime step input in
  let prefix := expectedPrefixes (detectAddressFormat input) in
  (status updated = StatusSuccess <-> trimStart input = input)
  /\ (status updated = StatusSuccess ->
      StepByStepValidator.result updated = Some (lit "PASS"))
  /\ (status updated <> StatusSuccess ->
      status updated = StatusError
      /\ StepByStepValidator.result updated = Some (lit "FAIL")
      /\ details updated = Some (lit "Missing " ++ prefix ++ lit " prefix")).
Proof.
  intros Hid Hl Hu. cbv zeta.
  assert (Hp : startsWith (trim input)
                 (expectedPrefixes (detectAddressFormat input)) = true
               /\ hd_error (expectedPrefixes (detectAddressFormat input))
                  = Some 115).
  { revert Hl Hu. unfold detectAddressFormat.
    repeat match goal with
           | |- context [if ?b then _ else _] => destruct b eqn:?
           end; intros; try contradiction; now split. }
  destruct Hp as [Hp Hs].
  assert (Hiff : startsWith input (expectedPrefixes (detectAddressFormat input))
                 = true <-> trimStart input = input).
  { split.
    - intros H. apply startsWith_inv in H. apply trimStart_fixed.
      rewrite H. destruct (expectedPrefixes _); [discriminate|].
      cbn in Hs |- *. injection Hs as ->. now intros c [= <-].
    - intros H. destruct (trim_prefix input) as [w Hw]. rewrite H in Hw.
      rewrite Hw at 1. now apply startsWith_more. }
  run_step step Hid. rewrite (structureCheck_bech32 _ Hl Hu). cbv zeta.
  destruct (startsWith input _); cbn [status result details].
  - repeat split; try easy. intros _. now apply Hiff.
  - repeat split; try easy. intros H. now apply Hiff in H.
Qed.

Lemma structure_step_on_bech32_witness :
  status
    (runValidationStep Bech32.library 10 13
       (pendingStep (lit "structure-validation") (lit "Structure Validation") [])
       (lit "strk1 not an address")) = StatusSuccess.
Proof.
  apply (structure_step_on_bech32 Bech32.library 10 13
           (pendingStep (lit "structure-validation")
              (lit "Structure Validation") [])
           (lit "strk1 not an address") eq_refl);
    (discriminate || reflexivity).
Defined.

End Steps.

(* ===================================================================== *)
(** ** The application                                                    *)
(* ===================================================================== *)

Lemma text_differs (a x b : jsstring) :
  firstn (length a) b <> a -> a ++ x <> b.
Proof.
  intros H E. apply H. rewrite <- E.
  rewrite firstn_app, Nat.sub_diag, firstn_all. cbn. apply app_nil_r.
Qed.

(** Tells an error text of the validators from that of the empty input. *)
Ltac other_text :=
  cbn [error invalid valid]; try discriminate;
  let H := fresh in
  intros [= H]; revert H;
  first [ apply text_differs; vm_compute; discriminate
        | vm_compute; discriminate ].

Lemma readRecord_other_error bytes offset result :
  readRecord bytes offset = inl result ->
  error result <> Some emptyInputMessage.
Proof.
  unfold readRecord, truncatedError, knownLengthError.
  repeat match goal with
         | |- context [if ?b then _ else _] => destruct b
         end; intros [= <-]; other_text.
Qed.

Lemma validateUnifiedAddress_other_error hrp v bytes :
  error (validateUnifiedAddress hrp v bytes) <> Some emptyInputMessage.
Proof.
  unfold validateUnifiedAddress.
  destruct (negb (v =? 1)); [other_text|].
  destruct (parseTLV bytes 0 []) as [result|out] eqn:E.
  - revert result E.
    apply (parseTLV_rounds bytes
             (fun _ _ out => forall result, out = inl result ->
                               error result <> Some emptyInputMessage)).
    + discriminate.
    + intros off rs result _ Hr r [= <-]. now apply readRecord_other_error in Hr.
    + auto.
  - destruct (length out =? 0)%nat; other_text.
Qed.

Lemma validateSimpleAddress_other_error fmt hrp v bytes :
  error (validateSimpleAddress fmt hrp v bytes) <> Some emptyInputMessage.
Proof.
  rewrite validateSimpleAddress_cascade. unfold exceedsFeltMessage.
  repeat match goal with
         | |- context [if ?b then _ else _] => destruct b
         end; other_text.
Qed.

Lemma validateBech32Address_other_error bech32 input f :
  error (validateBech32Address bech32 input f) <> Some emptyInputMessage.
Proof.
  unfold validateBech32Address, decodeError.
  destruct (decode bech32 (trim input)) as [e|[prefix words]]; [other_text|].
  cbv zeta. destruct (negb (streq prefix _)); [other_text|].
  destruct (fromWords bech32 words) as [e|numbers]; [other_text|].
  destruct (length (map toUint8 numbers) =? 0)%nat; [other_text|].
  destruct f; try apply validateSimpleAddress_other_error.
  apply validateUnifiedAddress_other_error.
Qed.

Lemma validateStarknetAddress_other_error bech32 input :
  input <> [] ->
  error (validateStarknetAddress bech32 input) <> Some emptyInputMessage.
Proof.
  intros Hne. rewrite validateStarknetAddress_switch by assumption.
  destruct (detectAddressFormat input) eqn:Hf;
    try apply validateBech32Address_other_error.
  - apply detect_legacy in Hf.
    rewrite (proj2 (validateLegacyAddress_verdict _ Hf)).
    unfold legacyVerdict. destruct (sliceFrom _ 2); [other_text|].
    repeat match goal with
           | |- context [if ?b then _ else _] => destruct b
           end; other_text.
  - unfold unknownFormatMessage. other_text.
Qed.

(** X23. The application validates what is typed only when something
    other than white space has been typed: it shows no result exactly
    when the address is blank, and otherwise the result of the entry
    point on the address as typed. The entry point's error for an empty
    input, [Input must be a non-empty string], is therefore never shown:
    no other failure carries that text. *)
Theorem application_never_reports_empty_input bech32 address :
  (App_validationResult bech32 address = None <-> trim address = [])
  /\ (forall result,
        App_validationResult bech32 address = Some result ->
        result = validateStarknetAddress bech32 address
        /\ error result <> Some (lit "Input must be a non-empty string")).
Proof.
  unfold App_validationResult.
  destruct (trim address) as [|c t] eqn:Ht.
  - split; [easy|discriminate].
  - split; [easy|]. intros result [= <-]. split; [reflexivity|].
    apply validateStarknetAddress_other_error. now intros ->.
Qed.

Lemma application_never_reports_empty_input_witness :
  App_validationResult Bech32.library (lit "   ") = None
  /\ error (validateStarknetAddress Bech32.library (lit "0xg"))
     <> Some (lit "Input must be a non-empty string").
Proof.
  split.
  - apply (proj1 (application_never_reports_empty_input Bech32.library
                    (lit "   "))).
    reflexivity.
  - exact (proj2 (proj2 (application_never_reports_empty_input Bech32.library
                           (lit "0xg")) _ eq_refl)).
Defined.
